(** * SupportMind retrieval and ranking pipeline: a shallow embedding

    The development follows the Python sources

      - [src/retrieval/chunking.py]    (sliding-window chunker, per-record chunk extraction)
      - [src/retrieval/build_index.py] (full index build, incremental KB add)
      - [src/retrieval/query.py]       (similarity query)
      - [src/agent/agent.py]           (comparator agent: retrieve, hydrate, rank, assemble)

    Python [str] values are lists of characters, Python [int] values are [Z],
    dictionaries with a fixed literal key set are association lists keyed by
    [string], and the vector store is a finite map from collection names to
    collections.  External collaborators (Chroma, SQLite, OpenAI, [json]) are
    fields of a record of functions, each of which may fail. *)

From Stdlib Require Import ZArith QArith Ascii String List Permutation Sorted Lia.
From stdpp Require Import base tactics option list gmap strings fin_maps pretty.

(** ** Python strings *)

Module PyStr.

Definition str := list ascii.

(** A string literal of the source. *)
Definition lit (s : string) : str := list_ascii_of_string s.
Global Arguments lit : simpl never.

(** [len(s)], for strings and for lists alike. *)
Definition len {A} (s : list A) : Z := Z.of_nat (length s).

(** [c.isspace()] on the code points below 256: TAB..CR, FS..US and SPACE,
    NEL and NBSP. *)
Definition isspace (c : ascii) : bool :=
  let n := nat_of_ascii c in
  (Nat.leb 9 n && Nat.leb n 13) || (Nat.leb 28 n && Nat.leb n 32)
  || Nat.eqb n 133 || Nat.eqb n 160.

Fixpoint lstrip (s : str) : str :=
  match s with
  | c :: s' => if isspace c then lstrip s' else s
  | [] => []
  end.

Definition rstrip (s : str) : str := rev (lstrip (rev s)).

(** [s.strip()] *)
Definition strip (s : str) : str := rstrip (lstrip s).

(** Bound normalisation of [s[start:stop]]: a negative bound counts from the
    end, and every bound is clamped to [0, len(s)]. *)
Definition slice_index (n i : Z) : Z :=
  if (i <? 0)%Z then Z.max 0 (i + n) else Z.min i n.

(** [s[start:stop]], for strings and for lists alike. *)
Definition slice {A} (s : list A) (start stop : Z) : list A :=
  let n := Z.of_nat (length s) in
  let lo := slice_index n start in
  let hi := slice_index n stop in
  take (Z.to_nat (hi - lo)) (drop (Z.to_nat lo) s).

(** [s.startswith(p)] *)
Fixpoint startswith (p s : str) : bool :=
  match p, s with
  | [], _ => true
  | a :: p', b :: s' => if decide (a = b) then startswith p' s' else false
  | _ :: _, [] => false
  end.

Definition nl : ascii := ascii_of_nat 10.

(** [str(n)] for a non-negative integer. *)
Definition str_of_nat (n : nat) : str := lit (pretty n).

(** Truthiness of a string: [bool(s)]. *)
Definition truthy (s : str) : bool :=
  match s with [] => false | _ :: _ => true end.

End PyStr.
Import PyStr.

(** ** chunking.py *)

Definition DEFAULT_CHUNK_SIZE : Z := 600.
Definition DEFAULT_CHUNK_OVERLAP : Z := 100.

Record Chunk := mkChunk {
  text : str;
  source_type : str;  (* "ticket" | "script" | "kb" *)
  source_id : str;
  chunk_index : nat   (* 0-based within the source *)
}.

(** The [while start < len(text)] loop of [_sliding_chunks].  One unit of fuel
    is one evaluation of the loop condition; [None] means the fuel ran out
    before the loop was left. *)
Fixpoint sliding_loop (fuel : nat) (text : str) (size overlap : Z)
    (start : Z) (chunks : list str) : option (list str) :=
  match fuel with
  | O => None
  | S fuel' =>
      if (start <? len text)%Z then
        let end_ := (start + size)%Z in
        let chunks := chunks ++ [slice text start end_] in
        if (end_ >=? len text)%Z then Some chunks
        else sliding_loop fuel' text size overlap (end_ - overlap)%Z chunks
      else Some chunks
  end.

Definition _sliding_chunks (fuel : nat) (text : str) (size overlap : Z)
    : option (list str) :=
  if negb (truthy text) then Some []
  else
    let text := strip text in
    if (len text <=? size)%Z then Some (if truthy text then [text] else [])
    else sliding_loop fuel text size overlap 0 [].

(** [_safe_str]: [None] (and NaN, SQL NULL) become the empty string. *)
Definition _safe_str (val : option str) : str :=
  match val with
  | None => []
  | Some s => strip s
  end.

(** The rows that [pd.read_sql] hands to the chunker; a cell is [None] when
    the column is NULL. *)
Module Tickets.
Record row := mk {
  Ticket_Number : option str;
  Status : option str;
  Tier : option str;
  Module_ : option str;
  Category : option str;
  Resolution : option str;
  KB_Article_ID : option str;
  Script_ID : option str;
  Description : option str
}.
End Tickets.

Module Scripts_Master.
Record row := mk {
  Script_ID : option str;
  Script_Text_Sanitized : option str
}.
End Scripts_Master.

Module Knowledge_Articles.
Record row := mk {
  KB_Article_ID : option str;
  Title : option str;
  Body : option str
}.
End Knowledge_Articles.

Record Database := mkDatabase {
  db_Tickets : list Tickets.row;
  db_Scripts_Master : list Scripts_Master.row;
  db_Knowledge_Articles : list Knowledge_Articles.row
}.

(** [Chunk(text=part, source_type=.., source_id=.., chunk_index=i)
     for i, part in enumerate(parts)] *)
Definition enumerate_chunks (st id : str) (parts : list str) : list Chunk :=
  imap (λ i part, mkChunk part st id i) parts.

(** [f"Description: {desc}\n\nResolution: {res}".strip()] *)
Definition ticket_combined (desc res : str) : str :=
  strip (lit "Description: " ++ desc ++ [nl; nl] ++ lit "Resolution: " ++ res).

(** [f"Title: {title}\n\n{body}".strip() if title else body] *)
Definition kb_combined (title body : str) : str :=
  if truthy title then strip (lit "Title: " ++ title ++ [nl; nl] ++ body)
  else body.

Fixpoint chunks_from_tickets (fuel : nat) (df : list Tickets.row)
    (chunk_size chunk_overlap : Z) : option (list Chunk) :=
  match df with
  | [] => Some []
  | row :: df' =>
      let ticket_id := _safe_str (Tickets.Ticket_Number row) in
      if negb (truthy ticket_id) then
        chunks_from_tickets fuel df' chunk_size chunk_overlap
      else
        let desc := _safe_str (Tickets.Description row) in
        let res := _safe_str (Tickets.Resolution row) in
        let combined := ticket_combined desc res in
        if negb (truthy combined) then
          chunks_from_tickets fuel df' chunk_size chunk_overlap
        else
          parts ← _sliding_chunks fuel combined chunk_size chunk_overlap;
          rest ← chunks_from_tickets fuel df' chunk_size chunk_overlap;
          Some (enumerate_chunks (lit "ticket") ticket_id parts ++ rest)
  end.

Fixpoint chunks_from_scripts (fuel : nat) (df : list Scripts_Master.row)
    (chunk_size chunk_overlap : Z) : option (list Chunk) :=
  match df with
  | [] => Some []
  | row :: df' =>
      let script_id := _safe_str (Scripts_Master.Script_ID row) in
      if negb (truthy script_id) then
        chunks_from_scripts fuel df' chunk_size chunk_overlap
      else
        let body := _safe_str (Scripts_Master.Script_Text_Sanitized row) in
        if negb (truthy body) then
          chunks_from_scripts fuel df' chunk_size chunk_overlap
        else
          parts ← _sliding_chunks fuel body chunk_size chunk_overlap;
          rest ← chunks_from_scripts fuel df' chunk_size chunk_overlap;
          Some (enumerate_chunks (lit "script") script_id parts ++ rest)
  end.

Fixpoint chunks_from_kb (fuel : nat) (df : list Knowledge_Articles.row)
    (chunk_size chunk_overlap : Z) : option (list Chunk) :=
  match df with
  | [] => Some []
  | row :: df' =>
      let kb_id := _safe_str (Knowledge_Articles.KB_Article_ID row) in
      if negb (truthy kb_id) then
        chunks_from_kb fuel df' chunk_size chunk_overlap
      else
        let title := _safe_str (Knowledge_Articles.Title row) in
        let body := _safe_str (Knowledge_Articles.Body row) in
        let combined := kb_combined title body in
        if negb (truthy combined) then
          chunks_from_kb fuel df' chunk_size chunk_overlap
        else
          parts ← _sliding_chunks fuel combined chunk_size chunk_overlap;
          rest ← chunks_from_kb fuel df' chunk_size chunk_overlap;
          Some (enumerate_chunks (lit "kb") kb_id parts ++ rest)
  end.

(** [load_chunks_from_db] with its default [include_*] flags: tickets, then
    scripts, then KB articles. *)
Definition load_chunks_from_db (fuel : nat) (db : Database)
    (chunk_size chunk_overlap : Z) : option (list Chunk) :=
  ts ← chunks_from_tickets fuel (db_Tickets db) chunk_size chunk_overlap;
  ss ← chunks_from_scripts fuel (db_Scripts_Master db) chunk_size chunk_overlap;
  ks ← chunks_from_kb fuel (db_Knowledge_Articles db) chunk_size chunk_overlap;
  Some (ts ++ ss ++ ks).

(** ** Exceptions *)

(** [AgentError] is the agent's own error class; every other subclass of
    [Exception] that a collaborator may raise is an [Exception_]. *)
Inductive pyexc :=
  | AgentError (msg : str)
  | JSONDecodeError (msg : str)
  | Exception_ (msg : str).

(** [str(e)] *)
Definition exc_msg (e : pyexc) : str :=
  match e with AgentError m | JSONDecodeError m | Exception_ m => m end.

Definition is_AgentError (e : pyexc) : bool :=
  match e with AgentError _ => true | _ => false end.


(** The outcome of a call: a value, or a raised exception. *)
Inductive res (A : Type) :=
  | Ok (a : A)
  | Raise (e : pyexc).
Arguments Ok {A} a.
Arguments Raise {A} e.

Global Instance res_ret : MRet res := λ A a, Ok a.
Global Instance res_bind : MBind res := λ A B f m,
  match m with Ok a => f a | Raise e => Raise e end.

(** ** The vector store *)

(** Chroma metadata of one entry: [{source_type, source_id, chunk_index}].
    A key may be missing in what a query hands back. *)
Record Metadata := mkMetadata {
  md_source_type : option str;
  md_source_id : option str;
  md_chunk_index : option Z
}.

Record Entry := mkEntry {
  e_id : str;
  e_document : str;
  e_metadata : Metadata
}.

(** A persistent Chroma directory: collection name to stored entries. *)
Abbreviation ChromaStore := (gmap str (list Entry)).

(** [client.delete_collection(name)] raises when there is no such collection. *)
Definition delete_collection (name : str) (chroma : ChromaStore) : res ChromaStore :=
  match chroma !! name with
  | Some _ => Ok (delete name chroma)
  | None => Raise (Exception_ (lit "Collection does not exist"))
  end.

(** [client.create_collection(name=name)] raises when the name is taken. *)
Definition create_collection (name : str) (chroma : ChromaStore) : res ChromaStore :=
  match chroma !! name with
  | Some _ => Raise (Exception_ (lit "Collection already exists"))
  | None => Ok (<[name := []]> chroma)
  end.

(** [client.get_collection(name=name)] *)
Definition get_collection (name : str) (chroma : ChromaStore) : res (list Entry) :=
  match chroma !! name with
  | Some c => Ok c
  | None => Raise (Exception_ (lit "Collection does not exist"))
  end.

Fixpoint zip_entries (ids documents : list str) (metadatas : list Metadata) : list Entry :=
  match ids, documents, metadatas with
  | i :: ids', d :: documents', m :: metadatas' =>
      mkEntry i d m :: zip_entries ids' documents' metadatas'
  | _, _, _ => []
  end.

(** [collection.add(ids=.., documents=.., metadatas=..)] *)
Definition collection_add (name : str) (ids documents : list str)
    (metadatas : list Metadata) (chroma : ChromaStore) : res ChromaStore :=
  c ← get_collection name chroma;
  Ok (<[name := c ++ zip_entries ids documents metadatas]> chroma).

(** ** build_index.py *)

Definition COLLECTION_NAME : str := lit "supportmind".

(** [f"{chunk.source_type}_{chunk.source_id}_{chunk.chunk_index}"] *)
Definition build_chunk_id (chunk : Chunk) : str :=
  source_type chunk ++ lit "_" ++ source_id chunk ++ lit "_"
    ++ str_of_nat (chunk_index chunk).

Definition build_metadata (chunk : Chunk) : Metadata :=
  {| md_source_type := Some (source_type chunk);
     md_source_id := Some (source_id chunk);
     md_chunk_index := Some (Z.of_nat (chunk_index chunk)) |}.

Definition batch_size : nat := 100.

(** [range(0, n, batch_size)] *)
Definition batch_starts (n : nat) : list nat :=
  map (λ j, j * batch_size) (seq 0 ((n + (batch_size - 1)) / batch_size)).

(** The batched write loop of [build_index]: it stops at the first batch
    that raises and leaves the batches written so far in the store. *)
Definition add_in_batches (name : str) (ids documents : list str)
    (metadatas : list Metadata) (chroma : ChromaStore) : res () * ChromaStore :=
  foldl (λ (acc : res () * ChromaStore) (i : nat),
           match acc with
           | (Raise e, chroma) => (Raise e, chroma)
           | (Ok _, chroma) =>
               let i := Z.of_nat i in
               let end_ := Z.min (i + Z.of_nat batch_size) (len ids) in
               match collection_add name (slice ids i end_) (slice documents i end_)
                       (slice metadatas i end_) chroma with
               | Ok chroma' => (Ok (), chroma')
               | Raise e => (Raise e, chroma)
               end
           end)
        (Ok (), chroma) (batch_starts (length ids)).

(** [build_index]: the result is [None] when the chunker does not come back
    within [fuel]; otherwise the returned count (or the raised exception)
    together with the store as the call leaves it. *)
Definition build_index (fuel : nat) (db : Database) (chroma : ChromaStore)
    (collection_name : str) (chunk_size chunk_overlap : Z)
    : option (res Z * ChromaStore) :=
  (* try: client.delete_collection(collection_name) except Exception: pass *)
  let chroma :=
    match delete_collection collection_name chroma with
    | Ok chroma' => chroma'
    | Raise _ => chroma
    end in
  match create_collection collection_name chroma with
  | Raise e => Some (Raise e, chroma)
  | Ok chroma =>
      chunks ← load_chunks_from_db fuel db chunk_size chunk_overlap;
      let ids := map build_chunk_id chunks in
      let documents := map text chunks in
      let metadatas := map build_metadata chunks in
      match ids with
      | [] => Some (Ok 0%Z, chroma)
      | _ :: _ =>
          match add_in_batches collection_name ids documents metadatas chroma with
          | (Ok _, chroma') => Some (Ok (len ids), chroma')
          | (Raise e, chroma') => Some (Raise e, chroma')
          end
      end
  end.

(** The [ids], [documents], [metadatas] that [add_kb_article_to_index] hands
    to [collection.add]. *)
Definition kb_article_chunk_list (kb_article_id : str) (chunks : list str) : list Chunk :=
  imap (λ i c, mkChunk c (lit "kb") kb_article_id i) chunks.

(** [f"kb_{chunk.source_id}_{chunk.chunk_index}"] *)
Definition add_chunk_id (chunk : Chunk) : str :=
  lit "kb_" ++ source_id chunk ++ lit "_" ++ str_of_nat (chunk_index chunk).

Definition add_metadata (chunk : Chunk) : Metadata :=
  {| md_source_type := Some (lit "kb");
     md_source_id := Some (source_id chunk);
     md_chunk_index := Some (Z.of_nat (chunk_index chunk)) |}.

Definition add_kb_article_to_index (fuel : nat) (kb_article_id title body : str)
    (chroma : ChromaStore) (collection_name : str) (chunk_size chunk_overlap : Z)
    : option (res Z * ChromaStore) :=
  let title := _safe_str (Some title) in
  let body := _safe_str (Some body) in
  let combined := kb_combined title body in
  if negb (truthy combined) then Some (Ok 0%Z, chroma)
  else
    chunks ← _sliding_chunks fuel combined chunk_size chunk_overlap;
    let chunk_list := kb_article_chunk_list kb_article_id chunks in
    match chunk_list with
    | [] => Some (Ok 0%Z, chroma)
    | _ :: _ =>
        match get_collection collection_name chroma with
        | Raise e => Some (Raise e, chroma)
        | Ok _ =>
            let ids := map add_chunk_id chunk_list in
            let documents := map text chunk_list in
            let metadatas := map add_metadata chunk_list in
            match collection_add collection_name ids documents metadatas chroma with
            | Ok chroma' => Some (Ok (len ids), chroma')
            | Raise e => Some (Raise e, chroma)
            end
        end
    end.

(** ** The collaborators of a query *)

(** What [collection.query(.., include=["documents", "metadatas", "distances"])]
    returns: parallel arrays, one inner list per query text. *)
Record QueryResult := mkQueryResult {
  qr_documents : option (list (list str));
  qr_metadatas : option (list (list Metadata));
  qr_distances : option (list (list Q))
}.

(** A Chroma collection as the retriever and the agent use it. *)
Record Collection := mkCollection {
  count : res Z;
  (* query_texts=[text], n_results, where={key: value} *)
  query : str → Z → option (str * str) → res QueryResult
}.

Record ChromaClient := mkChromaClient {
  chroma_path : str;
  chroma_path_exists : bool;
  (* the embedding function and [chromadb.PersistentClient(..)] *)
  open_client : res ();
  client_get_collection : str → res Collection
}.

(** ** query.py *)

Record Hit := mkHit {
  h_text : str;
  h_source_type : str;
  h_source_id : str;
  h_chunk_index : Z;
  h_distance : option Q
}.

(** [{}]: a metadata dictionary without keys. *)
Definition empty_metadata : Metadata := mkMetadata None None None.

Definition query_chroma (chroma : ChromaClient) (query_text : str) (k : Z)
    (collection_name : str) (where_ : option (str * str)) : res (list Hit) :=
  if negb (chroma_path_exists chroma) then Ok []
  else
    _ ← open_client chroma;
    collection ← client_get_collection chroma collection_name;
    n ← count collection;
    results ← query collection query_text (Z.min k n) where_;
    Ok (match qr_documents results with
        | Some ((_ :: _) as docs :: _) =>
            let metadatas :=
              match qr_metadatas results with
              | Some (m :: _) => m
              | _ => replicate (length docs) empty_metadata
              end in
            let distances :=
              match qr_distances results with
              | Some (d :: _) => map Some d
              | _ => replicate (length docs) None
              end in
            imap (λ i doc,
                    let meta := default empty_metadata (metadatas !! i) in
                    {| h_text := doc;
                       h_source_type := default [] (md_source_type meta);
                       h_source_id := default [] (md_source_id meta);
                       h_chunk_index := default 0%Z (md_chunk_index meta);
                       h_distance := default None (distances !! i) |}) docs
        | _ => []
        end).

(** ** agent.py *)

(** *** Collaborators of the agent *)

(** An open SQLite connection: the two SELECT statements of the agent, each
    followed by [fetchone()]. *)
Record Connection := mkConnection {
  (* SELECT .. FROM Tickets WHERE Ticket_Number = :ticket_num *)
  select_ticket : str → res (option Tickets.row);
  (* SELECT Script_Text_Sanitized FROM Scripts_Master WHERE Script_ID = :script_id *)
  select_script : str → res (option (option str))
}.

Record Sqlite := mkSqlite {
  db_path : str;
  db_path_exists : bool;
  connect : res Connection
}.

Module Candidate.
Record t := mk {
  ticket_number : option str;
  status : option str;
  tier : option str;
  module : option str;
  category : option str;
  resolution : str;
  kb_article_id : str;
  script_id : str;
  script_text : str;
  description : str
}.
End Candidate.

(** The truncated view of a candidate that is sent to the ranking service. *)
Module LlmCandidate.
Record t := mk {
  index : Z;
  ticket_number : option str;
  status : option str;
  tier : option str;
  module : option str;
  category : option str;
  description : str;
  resolution : str;
  has_kb_article : bool;
  has_script : bool
}.
End LlmCandidate.

(** One entry of the decoded ["rankings"] list; a key may be absent. *)
Module Ranking.
Record t := mk {
  index : option Z;
  rank : option Z;
  rationale : option str
}.
End Ranking.

(** The decoded response object; ["rankings"] may be absent. *)
Record Decoded := mkDecoded {
  rankings : option (list Ranking.t)
}.

Module RankedResult.
Record t := mk {
  rank : Z;
  ticket_number : option str;
  kb_article_id : str;
  script_id : str;
  script_text : str;
  rationale : str;
  module : option str;
  category : option str;
  status : option str;
  tier : option str
}.
End RankedResult.

Record OpenAI := mkOpenAI {
  (* os.getenv("OPENAI_API_KEY") *)
  OPENAI_API_KEY : option str;
  (* OpenAI(api_key=..) *)
  client_init : str → res ();
  (* chat.completions.create(model, system, user): choices[0].message.content *)
  chat_completions_create : str → str → str → res (option str)
}.

(** The values found in the dictionary that [compare] returns. *)
Inductive pyval :=
  | VNone
  | VBool (b : bool)
  | VStr (s : str)
  | VList (l : list RankedResult.t).

Definition pydict := list (string * pyval).

(** [d.get(key)] *)
Fixpoint dict_get (key : string) (d : pydict) : option pyval :=
  match d with
  | [] => None
  | (k, v) :: d' => if decide (k = key) then Some v else dict_get key d'
  end.

Record World := mkWorld {
  chroma : ChromaClient;
  db : Sqlite;
  openai : OpenAI;
  (* json.dumps(candidates_for_llm, indent=2) *)
  json_dumps : list LlmCandidate.t → str;
  (* json.loads(response_text) *)
  json_loads : str → res Decoded;
  (* the module-level hooks, [None] unless an orchestrator sets them *)
  incoming_hook : option (str → str → str);
  outgoing_hook : option (pydict → str → pydict)
}.

(** *** Calls to collaborators, in order *)

Inductive Event :=
  | EvVectorQuery (query_text : str) (n_results : Z)
  | EvSelectTicket (ticket_num : str)
  | EvSelectScript (script_id : str)
  | EvRankingCall (model : str) (user_content : str).

Definition is_ranking_call (ev : Event) : bool :=
  match ev with EvRankingCall _ _ => true | _ => false end.

(** A computation of the agent: it appends to the log of collaborator calls
    and returns a value or raises. *)
Definition M (A : Type) : Type := list Event → res A * list Event.

Definition ret {A} (a : A) : M A := λ log, (Ok a, log).
Definition raise {A} (e : pyexc) : M A := λ log, (Raise e, log).
Definition bind {A B} (m : M A) (k : A → M B) : M B := λ log,
  match m log with
  | (Ok a, log') => k a log'
  | (Raise e, log') => (Raise e, log')
  end.
(** A call to a collaborator: log it, then take its outcome. *)
Definition call {A} (ev : Event) (r : res A) : M A := λ log, (r, log ++ [ev]).
(** An outcome that needs no call of its own (an attribute, a constructor). *)
Definition lift {A} (r : res A) : M A := λ log, (r, log).
(** [try: m  except Exception as e: raise AgentError(f"{prefix}{e}") from e] *)
Definition try_except {A} (prefix : str) (m : M A) : M A := λ log,
  match m log with
  | (Raise e, log') => (Raise (AgentError (prefix ++ exc_msg e)), log')
  | r => r
  end.

Declare Scope agent_scope.
Delimit Scope agent_scope with agent.
Notation "x <- m ;; k" := (bind m (λ x, k))
  (at level 100, m at next level, right associativity) : agent_scope.
Local Open Scope agent_scope.

(** *** Step 1: retrieve *)

(** The [try] block around the embedding function, the client, the
    collection and the query. *)
Definition embedding_query_try (w : World) (question : str) (top_k : Z) : M QueryResult :=
  _ <- lift (open_client (chroma w)) ;;
  collection <- lift (client_get_collection (chroma w) (lit "supportmind")) ;;
  n <- lift (count collection) ;;
  call (EvVectorQuery question (Z.min top_k n))
       (query collection question (Z.min top_k n)
          (Some (lit "source_type", lit "ticket"))).

Definition embedding_query (w : World) (question : str) (top_k : Z) : M QueryResult :=
  try_except (lit "Embedding query failed: ") (embedding_query_try w question top_k).

(** The body of [for meta in results["metadatas"][0]]. *)
Definition add_ticket_number (ticket_numbers : list str) (meta : Metadata) : list str :=
  match md_source_id meta with
  | Some ticket_num =>
      if truthy ticket_num && negb (bool_decide (ticket_num ∈ ticket_numbers))
      then ticket_numbers ++ [ticket_num]
      else ticket_numbers
  | None => ticket_numbers
  end.

Definition extract_ticket_numbers (results : QueryResult) : list str :=
  match qr_metadatas results with
  | Some ((_ :: _) as metas :: _) => foldl add_ticket_number [] metas
  | _ => []
  end.

(** *** Step 2: hydrate *)

(** [x or ""] *)
Definition or_empty (x : option str) : str := default [] x.

(** Truthiness of a cell that is [None] or a string. *)
Definition truthy_opt (x : option str) : bool :=
  match x with Some s => truthy s | None => false end.

(** One round of [for ticket_num in ticket_numbers]. *)
Definition hydrate_one (conn : Connection) (candidates : list Candidate.t)
    (ticket_num : str) : M (list Candidate.t) :=
  row <- call (EvSelectTicket ticket_num) (select_ticket conn ticket_num) ;;
  match row with
  | None => ret candidates
  | Some row =>
      script_text <-
        (if truthy_opt (Tickets.Script_ID row) then
           let script_id := or_empty (Tickets.Script_ID row) in
           script_row <- call (EvSelectScript script_id) (select_script conn script_id) ;;
           match script_row with
           | Some (Some sanitized) => ret sanitized
           | _ => ret []
           end
         else ret []) ;;
      ret (candidates ++ [
        {| Candidate.ticket_number := Tickets.Ticket_Number row;
           Candidate.status := Tickets.Status row;
           Candidate.tier := Tickets.Tier row;
           Candidate.module := Tickets.Module_ row;
           Candidate.category := Tickets.Category row;
           Candidate.resolution := or_empty (Tickets.Resolution row);
           Candidate.kb_article_id := or_empty (Tickets.KB_Article_ID row);
           Candidate.script_id := or_empty (Tickets.Script_ID row);
           Candidate.script_text := script_text;
           Candidate.description := or_empty (Tickets.Description row) |} ])
  end.

Fixpoint hydrate_loop (conn : Connection) (candidates : list Candidate.t)
    (ticket_numbers : list str) : M (list Candidate.t) :=
  match ticket_numbers with
  | [] => ret candidates
  | ticket_num :: rest =>
      candidates <- hydrate_one conn candidates ticket_num ;;
      hydrate_loop conn candidates rest
  end.

(** The [try] block around the connection and the loop. *)
Definition hydrate_try (w : World) (ticket_numbers : list str) : M (list Candidate.t) :=
  conn <- lift (connect (db w)) ;;
  hydrate_loop conn [] ticket_numbers.

Definition hydrate (w : World) (ticket_numbers : list str) : M (list Candidate.t) :=
  try_except (lit "Database query failed: ") (hydrate_try w ticket_numbers).

(** *** Step 3: rank *)

Definition dq : ascii := ascii_of_nat 34.
Definition quoted (s : string) : str := [dq] ++ lit s ++ [dq].

(** [sep.join(lines)] *)
Definition join (sep : str) (lines : list str) : str :=
  match lines with
  | [] => []
  | l :: lines' => l ++ flat_map (λ x, sep ++ x) lines'
  end.

Definition system_prompt : str :=
  join [nl] [
    lit "You are a support ticket ranker. Given a user's support question and a list of similar resolved tickets, rank ALL of them from best to worst match.";
    [];
    lit "Return a JSON object with:";
    lit "{";
    lit "    " ++ quoted "rankings" ++ lit ": [";
    lit "        {";
    lit "            " ++ quoted "index" ++ lit ": <candidate index>,";
    lit "            " ++ quoted "rank" ++ lit ": 1,";
    lit "            " ++ quoted "rationale" ++ lit ": "
      ++ quoted "<one sentence why this is ranked #1>";
    lit "        },";
    lit "        {";
    lit "            " ++ quoted "index" ++ lit ": <candidate index>,";
    lit "            " ++ quoted "rank" ++ lit ": 2,";
    lit "            " ++ quoted "rationale" ++ lit ": "
      ++ quoted "<one sentence why this is ranked #2>";
    lit "        },";
    lit "        ... (rank all candidates)";
    lit "    ]";
    lit "}";
    [];
    lit "Rank based on:";
    lit "- Similarity to the user's issue";
    lit "- Quality of resolution";
    lit "- Availability of KB article and script";
    lit "- Module/category match";
    [];
    lit "Return only valid JSON, no markdown." ].

(** The entry of [candidates_for_llm] for [enumerate(candidates)]'s [(i, c)]. *)
Definition candidate_for_llm (i : nat) (c : Candidate.t) : LlmCandidate.t :=
  {| LlmCandidate.index := Z.of_nat i;
     LlmCandidate.ticket_number := Candidate.ticket_number c;
     LlmCandidate.status := Candidate.status c;
     LlmCandidate.tier := Candidate.tier c;
     LlmCandidate.module := Candidate.module c;
     LlmCandidate.category := Candidate.category c;
     LlmCandidate.description := slice (Candidate.description c) 0 300;
     LlmCandidate.resolution := slice (Candidate.resolution c) 0 300;
     LlmCandidate.has_kb_article := truthy (Candidate.kb_article_id c);
     LlmCandidate.has_script := truthy (Candidate.script_id c) |}.

Definition user_content (w : World) (question : str) (candidates : list Candidate.t) : str :=
  lit "User question: " ++ question ++ [nl; nl] ++ lit "Candidate tickets:" ++ [nl]
    ++ json_dumps w (imap candidate_for_llm candidates).

(** The credential check, the client and the one request to the ranking
    service; the value is [response.choices[0].message.content]. *)
Definition ranking_call (w : World) (question model : str)
    (candidates : list Candidate.t) : M (option str) :=
  match OPENAI_API_KEY (openai w) with
  | None => raise (AgentError (lit "OPENAI_API_KEY not set in .env"))
  | Some api_key =>
      if negb (truthy api_key) || negb (truthy (strip api_key)) then
        raise (AgentError (lit "OPENAI_API_KEY not set in .env"))
      else
        _ <- try_except (lit "OpenAI client init failed: ")
               (lift (client_init (openai w) (strip api_key))) ;;
        let content := user_content w question candidates in
        try_except (lit "OpenAI API call failed: ")
          (call (EvRankingCall model content)
                (chat_completions_create (openai w) model system_prompt content))
  end.

(** *** Step 4: parse and assemble *)

(** [s.split("\n")] for a one-character separator. *)
Fixpoint split (sep : ascii) (s : str) : list str :=
  match s with
  | [] => [[]]
  | c :: s' =>
      if decide (c = sep) then [] :: split sep s'
      else match split sep s' with
           | l :: ls => (c :: l) :: ls
           | [] => [[c]]
           end
  end.

Definition fence : str := lit "```".

(** The [# Strip markdown if present] block. *)
Definition strip_markdown (response_text : str) : str :=
  if startswith fence response_text then
    let lines := split nl response_text in
    let lines :=
      match lines with
      | l0 :: rest => if startswith fence l0 then rest else lines
      | [] => lines
      end in
    let lines :=
      match last lines with
      | Some l => if decide (strip l = fence) then removelast lines else lines
      | None => lines
      end in
    join [nl] lines
  else response_text.

(** The body of [for ranking in rankings]. *)
Definition add_ranked_result (candidates : list Candidate.t)
    (ranked_results : list RankedResult.t) (ranking : Ranking.t)
    : list RankedResult.t :=
  let idx := default (-1)%Z (Ranking.index ranking) in
  if (idx <? 0)%Z || (idx >=? len candidates)%Z then ranked_results
  else
    match candidates !! Z.to_nat idx with
    | Some candidate =>
        ranked_results ++ [
          {| RankedResult.rank := default 0%Z (Ranking.rank ranking);
             RankedResult.ticket_number := Candidate.ticket_number candidate;
             RankedResult.kb_article_id := Candidate.kb_article_id candidate;
             RankedResult.script_id := Candidate.script_id candidate;
             RankedResult.script_text := Candidate.script_text candidate;
             RankedResult.rationale := or_empty (Ranking.rationale ranking);
             RankedResult.module := Candidate.module candidate;
             RankedResult.category := Candidate.category candidate;
             RankedResult.status := Candidate.status candidate;
             RankedResult.tier := Candidate.tier candidate |} ]
    | None => ranked_results (* not reached: 0 <= idx < len(candidates) *)
    end.

Definition build_ranked_results (candidates : list Candidate.t)
    (rankings : list Ranking.t) : list RankedResult.t :=
  foldl (add_ranked_result candidates) [] rankings.

(** [list.sort(key=lambda x: x["rank"])] is a stable ascending sort: an entry
    is put before the first entry that has a strictly greater key. *)
Fixpoint insert_by_rank (x : RankedResult.t) (l : list RankedResult.t)
    : list RankedResult.t :=
  match l with
  | [] => [x]
  | y :: l' =>
      if (RankedResult.rank x <=? RankedResult.rank y)%Z then x :: y :: l'
      else y :: insert_by_rank x l'
  end.

Definition sort_by_rank (l : list RankedResult.t) : list RankedResult.t :=
  foldr insert_by_rank [] l.

(** From the response text to the returned dictionary. *)
Definition parse_and_assemble (w : World) (context question : str)
    (candidates : list Candidate.t) (content : option str) : M pydict :=
  let response_text := strip (or_empty content) in
  let response_text := strip_markdown response_text in
  match json_loads w response_text with
  | Raise (JSONDecodeError msg) =>
      raise (AgentError (lit "OpenAI returned invalid JSON: " ++ msg))
  | Raise e => raise e
  | Ok decision =>
      match default [] (rankings decision) with
      | [] =>
          ret [("ranked_results", VList []);
               ("question", VStr question);
               ("no_match", VBool true)]
      | (_ :: _) as rankings =>
          let ranked_results := build_ranked_results candidates rankings in
          let ranked_results := sort_by_rank ranked_results in
          let result := [("ranked_results", VList ranked_results);
                         ("question", VStr question);
                         ("no_match", VBool false)] in
          ret match outgoing_hook w with
              | Some hook => hook result context
              | None => result
              end
      end
  end.

(** *** compare *)

Definition compare (w : World) (question : str) (top_k : Z) (model : str) : M pydict :=
  let context := question in
  let question :=
    match incoming_hook w with
    | Some hook => hook question context
    | None => question
    end in
  if negb (chroma_path_exists (chroma w)) then
    raise (AgentError (lit "Chroma index not found: " ++ chroma_path (chroma w)))
  else
    results <- embedding_query w question top_k ;;
    match extract_ticket_numbers results with
    | [] =>
        ret [("winner", VNone);
             ("candidates", VList []);
             ("question", VStr question);
             ("no_match", VBool true)]
    | (_ :: _) as ticket_numbers =>
        if negb (db_path_exists (db w)) then
          raise (AgentError (lit "DB not found: " ++ db_path (db w)))
        else
          candidates <- hydrate w ticket_numbers ;;
          match candidates with
          | [] =>
              ret [("ranked_results", VList []);
                   ("question", VStr question);
                   ("no_match", VBool true)]
          | _ :: _ =>
              content <- ranking_call w question model candidates ;;
              parse_and_assemble w context question candidates content
          end
    end.

(** ** Specification-side notions *)

(** The windows that the chunker's loop produces from position [start] on:
    every window but the last ends strictly inside the text and is followed
    by the window that starts [size - overlap] characters later. *)
Inductive windows_from (t : str) (size overlap : Z) : nat → list str → Prop :=
  | windows_last start :
      start < length t →
      (len t ≤ Z.of_nat start + size)%Z →
      windows_from t size overlap start [drop start t]
  | windows_step start ws :
      (Z.of_nat start + size < len t)%Z →
      windows_from t size overlap (start + Z.to_nat (size - overlap)) ws →
      windows_from t size overlap start (take (Z.to_nat size) (drop start t) :: ws).








(** The first inner list of [results["documents"]]. *)
Definition first_documents (results : QueryResult) : list str :=
  match qr_documents results with
  | Some (docs :: _) => docs
  | _ => []
  end.





(** The question after the incoming hook. *)
Definition hooked_question (w : World) (question : str) : str :=
  match incoming_hook w with
  | Some hook => hook question question
  | None => question
  end.

(** A response text wrapped in a markdown code fence: an opening line of
    three backticks and an optional language tag, the body, and a closing
    line of three backticks. *)
Definition fenced (tag body : str) : str :=
  fence ++ tag ++ [nl] ++ body ++ [nl] ++ fence.

(** ** Sample data *)

Definition ticket_meta (id : string) (i : Z) : Metadata :=
  mkMetadata (Some (lit "ticket")) (Some (lit id)) (Some i).

(** The retrieved chunks [("T1", 0.1), ("T2", 0.2), ("T1", 0.3)]. *)
Definition sample_results : QueryResult :=
  {| qr_documents := Some [[lit "Description: a"; lit "Description: b"; lit "Resolution: a"]];
     qr_metadatas := Some [[ticket_meta "T1" 0; ticket_meta "T2" 0; ticket_meta "T1" 1]];
     qr_distances := Some [[(1#10)%Q; (2#10)%Q; (3#10)%Q]] |}.

(** The rankings
    [{index: 1, rank: 1, rationale: best fit}, {index: 0, rank: 2, rationale: partial fit}]. *)
Definition sample_rankings : list Ranking.t :=
  [ Ranking.mk (Some 1%Z) (Some 1%Z) (Some (lit "best fit"));
    Ranking.mk (Some 0%Z) (Some 2%Z) (Some (lit "partial fit")) ].


(** A world around the sample data: an index that answers every query with
    [sample_results], a store with the tickets T1 and T2, a ranking service
    that answers with [sample_response], and a decoder that knows that one
    text. *)
Definition sample_collection : Collection :=
  {| count := Ok 3%Z;
     query := λ _ _ _, Ok sample_results |}.

Definition sample_chroma : ChromaClient :=
  {| chroma_path := lit "data/chroma";
     chroma_path_exists := true;
     open_client := Ok ();
     client_get_collection := λ name,
       if decide (name = lit "supportmind") then Ok sample_collection
       else Raise (Exception_ (lit "Collection does not exist")) |}.

Definition sample_ticket (id kb script_id : string) : Tickets.row :=
  {| Tickets.Ticket_Number := Some (lit id);
     Tickets.Status := Some (lit "Closed");
     Tickets.Tier := Some (lit "1");
     Tickets.Module_ := Some (lit "Billing");
     Tickets.Category := Some (lit "Invoices");
     Tickets.Resolution := Some (lit "Re-ran the invoice job.");
     Tickets.KB_Article_ID := Some (lit kb);
     Tickets.Script_ID := Some (lit script_id);
     Tickets.Description := Some (lit "Invoice totals are wrong.") |}.

Definition sample_connection : Connection :=
  {| select_ticket := λ ticket_num,
       if decide (ticket_num = lit "T1") then Ok (Some (sample_ticket "T1" "KB-1" "S-1"))
       else if decide (ticket_num = lit "T2") then Ok (Some (sample_ticket "T2" "KB-2" ""))
       else Ok None;
     select_script := λ script_id,
       if decide (script_id = lit "S-1") then Ok (Some (Some (lit "UPDATE invoices SET ...")))
       else Ok None |}.

Definition sample_db : Sqlite :=
  {| db_path := lit "data/supportmind.db";
     db_path_exists := true;
     connect := Ok sample_connection |}.

Definition sample_response : str :=
  lit "{" ++ quoted "rankings" ++ lit ": [{"
    ++ quoted "index" ++ lit ": 1, " ++ quoted "rank" ++ lit ": 1, "
    ++ quoted "rationale" ++ lit ": " ++ quoted "best fit" ++ lit "}, {"
    ++ quoted "index" ++ lit ": 0, " ++ quoted "rank" ++ lit ": 2, "
    ++ quoted "rationale" ++ lit ": " ++ quoted "partial fit" ++ lit "}]}".

Definition sample_openai : OpenAI :=
  {| OPENAI_API_KEY := Some (lit "sk-test");
     client_init := λ _, Ok ();
     chat_completions_create := λ _ _ _, Ok (Some sample_response) |}.

Definition sample_world : World :=
  {| chroma := sample_chroma;
     db := sample_db;
     openai := sample_openai;
     json_dumps := λ l, lit "[..." ++ str_of_nat (length l) ++ lit " candidates...]";
     json_loads := λ s,
       if decide (strip s = sample_response)
       then Ok (mkDecoded (Some sample_rankings))
       else Raise (JSONDecodeError (lit "Expecting value"));
     incoming_hook := None;
     outgoing_hook := None |}.

(** The same world with another answer of the ranking service. *)
Definition with_response (w : World) (content : option str) : World :=
  {| chroma := chroma w;
     db := db w;
     openai :=
       {| OPENAI_API_KEY := OPENAI_API_KEY (openai w);
          client_init := client_init (openai w);
          chat_completions_create := λ _ _ _, Ok content |};
     json_dumps := json_dumps w;
     json_loads := json_loads w;
     incoming_hook := incoming_hook w;
     outgoing_hook := outgoing_hook w |}.

(** An index that holds no ticket chunk: three chunks of other source types,
    so that a query filtered on tickets comes back empty. *)
Definition no_ticket_world : World :=
  {| chroma :=
       {| chroma_path := lit "data/chroma";
          chroma_path_exists := true;
          open_client := Ok ();
          client_get_collection := λ _,
            Ok {| count := Ok 3%Z;
                  query := λ _ _ _, Ok (mkQueryResult (Some [[]]) (Some [[]]) (Some [[]])) |} |};
     db := db sample_world;
     openai := openai sample_world;
     json_dumps := json_dumps sample_world;
     json_loads := json_loads sample_world;
     incoming_hook := None;
     outgoing_hook := None |}.

(** A Chroma directory that exists but has no collection yet. *)
Definition missing_collection_chroma : ChromaClient :=
  {| chroma_path := lit "data/chroma";
     chroma_path_exists := true;
     open_client := Ok ();
     client_get_collection := λ _,
       Raise (Exception_ (lit "Collection supportmind does not exist")) |}.

(** A store without rows, and a vector store with one earlier entry. *)
Definition empty_database : Database := mkDatabase [] [] [].

Definition stale_store : ChromaStore :=
  {[ COLLECTION_NAME :=
       [ mkEntry (lit "ticket_T1_0") (lit "Description: a")
           (ticket_meta "T1" 0) ] ]}.

(** One KB article whose id carries a leading blank, as a row of the store
    and as the arguments of the incremental add. *)
Definition padded_id : str := lit " KB1".

Definition padded_article_db : Database :=
  mkDatabase [] []
    [ Knowledge_Articles.mk (Some padded_id) (Some (lit "Reset"))
        (Some (lit "Hold the button.")) ].

(** Glue windows back together: the first window as it is, every later
    window without its first [overlap] characters. *)
Definition reassemble (overlap : nat) (ws : list str) : str :=
  match ws with
  | [] => []
  | w :: ws' => w ++ concat (map (drop overlap) ws')
  end.








(** The entry under which the full build stores a chunk. *)
Definition entry_of_chunk (chunk : Chunk) : Entry :=
  mkEntry (build_chunk_id chunk) (text chunk) (build_metadata chunk).

(** The entry under which the incremental add stores window [i] of an
    article. *)
Definition kb_entry (kb_article_id : str) (i : nat) (part : str) : Entry :=
  mkEntry (lit "kb_" ++ kb_article_id ++ lit "_" ++ str_of_nat i) part
    (mkMetadata (Some (lit "kb")) (Some kb_article_id) (Some (Z.of_nat i))).

(** * Properties *)

(** ** Slices and stripping *)

Section slice_facts.
Context {A : Type}.
Implicit Types s : list A.

(** A slice whose bounds lie inside the text is a [take] of a [drop]. *)
Lemma slice_window s (start : nat) (size : Z) :
  start ≤ length s → (0 ≤ size)%Z →
  slice s (Z.of_nat start) (Z.of_nat start + size)
  = take (Z.to_nat size) (drop start s).
Proof.
  intros Hstart Hsize. unfold slice, slice_index.
  destruct (Z.ltb_spec (Z.of_nat start) 0); [lia|].
  destruct (Z.ltb_spec (Z.of_nat start + size) 0); [lia|].
  rewrite (Z.min_l (Z.of_nat start)) by lia.
  rewrite Nat2Z.id.
  destruct (Z.le_ge_cases (Z.of_nat start + size) (Z.of_nat (length s))) as [Hin|Hout].
  - rewrite Z.min_l by lia. f_equal. lia.
  - rewrite Z.min_r by lia.
    rewrite !take_ge; [done| |]; rewrite length_drop; lia.
Qed.
End slice_facts.

Lemma truthy_length s : truthy s = true ↔ 0 < length s.
Proof. destruct s; simpl; split; (lia || done). Qed.

Lemma truthy_false_nil s : truthy s = false ↔ s = [].
Proof. by destruct s. Qed.

Lemma lstrip_nonempty s : lstrip s ≠ [] → s ≠ [].
Proof. by destruct s. Qed.

Lemma strip_nonempty s : strip s ≠ [] → s ≠ [].
Proof.
  unfold strip, rstrip. intros H Hs. subst s. by apply H.
Qed.

(** ** The sliding-window chunker *)

Section sliding.
Variable t : str.
Variables size overlap : Z.

(** More fuel does not change a result. *)
Lemma sliding_loop_more_fuel fuel extra : ∀ start chunks r,
  sliding_loop fuel t size overlap start chunks = Some r →
  sliding_loop (fuel + extra) t size overlap start chunks = Some r.
Proof.
  induction fuel as [|fuel IH]; intros start chunks r; [done|]. simpl.
  destruct (start <? len t)%Z; [|done].
  destruct (start + size >=? len t)%Z; [done|]. apply IH.
Qed.

Hypothesis Hoverlap : (0 ≤ overlap < size)%Z.

Lemma sliding_loop_windows fuel : ∀ (start : nat) chunks,
  start < length t →
  length t - start ≤ fuel →
  ∃ ws, sliding_loop fuel t size overlap (Z.of_nat start) chunks = Some (chunks ++ ws)
        ∧ windows_from t size overlap start ws.
Proof.
  induction fuel as [|fuel IH]; intros start chunks Hlt Hfuel; [lia|].
  simpl. unfold len in *.
  destruct (Z.ltb_spec (Z.of_nat start) (Z.of_nat (length t))); [|lia].
  rewrite slice_window by lia.
  rewrite Z.geb_leb.
  destruct (Z.leb_spec (Z.of_nat (length t)) (Z.of_nat start + size)) as [Hend|Hend].
  - exists [drop start t]. split.
    + rewrite take_ge; [done|]. rewrite length_drop. lia.
    + by constructor.
  - replace (Z.of_nat start + size - overlap)%Z
      with (Z.of_nat (start + Z.to_nat (size - overlap))) by lia.
    destruct (IH (start + Z.to_nat (size - overlap))
                 (chunks ++ [take (Z.to_nat size) (drop start t)]))
      as (ws & Hrun & Hws); [lia|lia|].
    exists (take (Z.to_nat size) (drop start t) :: ws). split.
    + rewrite Hrun. by rewrite <- app_assoc.
    + by constructor.
Qed.

(** Position and extent of the [i]-th window. *)
Lemma windows_from_lookup start ws :
  windows_from t size overlap start ws → ∀ i w, ws !! i = Some w →
    let pos := start + i * Z.to_nat (size - overlap) in
    w = take (Z.to_nat size) (drop pos t)
    ∧ pos < length t
    ∧ (S i < length ws → pos + Z.to_nat size < length t)
    ∧ (S i = length ws → length t ≤ pos + Z.to_nat size).
Proof.
  induction 1 as [start Hlt Hend|start ws Hend Hws IH]; intros i w Hi;
    unfold len in *.
  - destruct i as [|i]; [|done]. simpl in Hi. injection Hi as <-.
    simpl. rewrite Nat.add_0_r. repeat split; try (simpl; lia).
    rewrite take_ge; [done|]. rewrite length_drop. lia.
  - destruct i as [|i]; simpl in Hi.
    + injection Hi as <-. simpl. rewrite Nat.add_0_r.
      repeat split; try lia.
      inversion Hws; simpl; lia.
    + destruct (IH i w Hi) as (Hw & Hpos & Hmid & Hlast).
      replace (start + S i * Z.to_nat (size - overlap))
        with (start + Z.to_nat (size - overlap) + i * Z.to_nat (size - overlap)) by lia.
      simpl. repeat split; [done|done| |]; intros; [apply Hmid|apply Hlast]; lia.
Qed.

Lemma windows_from_nonempty start ws : windows_from t size overlap start ws → ws ≠ [].
Proof. by destruct 1. Qed.

Lemma windows_from_two start ws :
  (Z.of_nat start + size < len t)%Z → windows_from t size overlap start ws → 2 ≤ length ws.
Proof.
  intros Hlt Hws. destruct Hws as [|? ? ? Hrest]; [unfold len in *; lia|].
  apply windows_from_nonempty in Hrest. destruct ws; [done|simpl; lia].
Qed.
End sliding.

(** C2.  For every text whose trimmed length exceeds [size], and every
    [overlap] with [0 <= overlap < size], [_sliding_chunks] returns (given fuel
    for one loop round per character) windows [ws] of the trimmed text such
    that: window [i] is the text from position [i * (size - overlap)] on, cut
    after [size] characters; every window but the last has exactly [size]
    characters; the last [overlap] characters of a window are the first
    [overlap] characters of the next one, which starts [overlap] characters
    before its predecessor ends and is longer than [overlap]; and the last
    window ends where the trimmed text ends. *)
Theorem sliding_chunks_overlapping_windows (text : str) (size overlap : Z) :
  (size < len (strip text))%Z → (0 ≤ overlap < size)%Z →
  let t := strip text in
  let step := Z.to_nat (size - overlap) in
  ∃ ws : list str,
    (∀ fuel, length t ≤ fuel → _sliding_chunks fuel text size overlap = Some ws)
    ∧ 2 ≤ length ws
    ∧ (∀ i w, ws !! i = Some w → w = take (Z.to_nat size) (drop (i * step) t))
    ∧ (∀ i w, ws !! i = Some w → S i < length ws → length w = Z.to_nat size)
    ∧ (∀ i w w', ws !! i = Some w → ws !! S i = Some w' →
         S i * step + Z.to_nat overlap = i * step + length w
         ∧ drop step w = take (Z.to_nat overlap) w'
         ∧ Z.to_nat overlap < length w')
    ∧ (∀ w, last ws = Some w → (length ws - 1) * step + length w = length t).
Proof.
  intros Hlong Hov t step. unfold len in Hlong. fold t in Hlong.
  assert (Ht : 0 < length t) by lia.
  destruct (sliding_loop_windows t size overlap Hov (length t) 0 [])
    as (ws & Hrun & Hws); [lia|lia|].
  change (Z.of_nat 0) with 0%Z in Hrun. rewrite app_nil_l in Hrun.
  pose proof (windows_from_lookup t size overlap Hov 0 ws Hws) as Hlook.
  simpl in Hlook. fold step in Hlook.
  exists ws. split; [|split; [|split; [|split; [|split]]]].
  - intros fuel Hfuel. unfold _sliding_chunks.
    assert (text ≠ []) as Htext.
    { apply strip_nonempty. fold t. intros E. rewrite E in Ht. simpl in Ht. lia. }
    replace (truthy text) with true by (by destruct text).
    cbn [negb]. cbv zeta. change (strip text) with t.
    destruct (Z.leb_spec (len t) size) as [Hle|_]; [unfold len in Hle; lia|].
    replace fuel with (length t + (fuel - length t)) by lia.
    by apply sliding_loop_more_fuel.
  - eapply (windows_from_two t size overlap 0); [unfold len; lia|done].
  - intros i w Hi. by destruct (Hlook i w Hi) as (-> & _).
  - intros i w Hi Hmid. destruct (Hlook i w Hi) as (-> & _ & Hin & _).
    specialize (Hin Hmid). rewrite length_take, length_drop. lia.
  - intros i w w' Hi Hi'.
    assert (S i < length ws) as Hmid by (by apply lookup_lt_Some in Hi').
    destruct (Hlook i w Hi) as (-> & _ & Hin & _). specialize (Hin Hmid).
    destruct (Hlook (S i) w' Hi') as (-> & Hpos' & _ & _).
    rewrite !length_take, !length_drop.
    replace (S i * step) with (i * step + step) in * by lia.
    assert (Z.to_nat size = step + Z.to_nat overlap) as Hsz by (unfold step; lia).
    split; [lia|]. split; [|lia].
    rewrite take_take, Nat.min_l by lia.
    rewrite Hsz, <- take_drop_commute, drop_drop. done.
  - intros w Hlast. rewrite last_lookup in Hlast.
    assert (2 ≤ length ws) as Htwo
      by (eapply (windows_from_two t size overlap 0); [unfold len; lia|done]).
    destruct (Hlook _ w Hlast) as (-> & Hpos & _ & Hend).
    replace (pred (length ws)) with (length ws - 1) in * by lia.
    rewrite take_ge by (rewrite length_drop; lia).
    rewrite length_drop. lia.
Qed.

Lemma sliding_chunks_overlapping_windows_witness :
  ∃ ws : list str,
    _sliding_chunks 12 (lit "  abcdefghij") 4 1 = Some ws
    ∧ 2 ≤ length ws
    ∧ (∀ w, last ws = Some w → (length ws - 1) * 3 + length w = 10).
Proof.
  destruct (sliding_chunks_overlapping_windows (lit "  abcdefghij") 4 1)
    as (ws & Hrun & Htwo & _ & _ & _ & Hlast).
  - vm_compute. reflexivity.
  - lia.
  - exists ws. split; [|split].
    + apply Hrun. vm_compute. lia.
    + exact Htwo.
    + exact Hlast.
Defined.

(** With [overlap >= size] the start position never moves forward, so the
    loop is never left. *)
Lemma sliding_loop_diverges (t : str) (size overlap : Z) fuel : ∀ start chunks,
  (size ≤ overlap)%Z → (size < len t)%Z → (0 < len t)%Z → (start ≤ 0)%Z →
  sliding_loop fuel t size overlap start chunks = None.
Proof.
  induction fuel as [|fuel IH]; intros start chunks Hov Hlong Hne Hstart; [done|].
  simpl.
  destruct (Z.ltb_spec start (len t)); [|lia].
  rewrite Z.geb_leb.
  destruct (Z.leb_spec (len t) (start + size)); [lia|].
  apply IH; lia.
Qed.

Lemma sliding_chunks_diverges (text : str) (size overlap : Z) fuel :
  strip text ≠ [] → (size < len (strip text))%Z → (size ≤ overlap)%Z →
  _sliding_chunks fuel text size overlap = None.
Proof.
  intros Hne Hlong Hov. unfold _sliding_chunks.
  replace (truthy text) with true
    by (apply strip_nonempty in Hne; by destruct text).
  cbn [negb]. cbv zeta.
  destruct (Z.leb_spec (len (strip text)) size); [lia|].
  apply sliding_loop_diverges; [done|done| |done].
  unfold len. destruct (strip text); [done|simpl; lia].
Qed.

(** C3, as the code has it.  [_sliding_chunks] does not check
    [overlap < size]: for every call with [overlap >= size] and a non-empty
    trimmed text longer than [size], the loop is never left, whatever the
    number of rounds it is given; the call neither returns nor raises. *)
Theorem sliding_chunks_no_fail_fast (text : str) (size overlap : Z) :
  strip text ≠ [] → (size < len (strip text))%Z → (size ≤ overlap)%Z →
  ∀ fuel, _sliding_chunks fuel text size overlap = None.
Proof. intros. by apply sliding_chunks_diverges. Qed.

Lemma sliding_chunks_no_fail_fast_witness :
  _sliding_chunks 1000 (lit "abc") 2 2 = None.
Proof.
  apply (sliding_chunks_no_fail_fast (lit "abc") 2 2).
  - vm_compute. discriminate.
  - vm_compute. reflexivity.
  - lia.
Defined.

(** C3, as stated, fails: on the text [abc] with [size = 2] and
    [overlap = 2] the call comes back with nothing (no value, no error), for
    any number of loop rounds. *)
Lemma sliding_chunks_fail_fast_counterexample :
  ¬ ∃ fuel r, _sliding_chunks fuel (lit "abc") 2 2 = Some r.
Proof.
  intros (fuel & r & H).
  rewrite sliding_chunks_diverges in H; [done| | |lia].
  - vm_compute. discriminate.
  - vm_compute. reflexivity.
Qed.

(** ** Deduplication of retrieved ticket ids *)









(** ** Assembly of the ranked results *)










(** ** Markdown fences *)

Lemma split_nonempty sep s : split sep s ≠ [].
Proof.
  destruct s as [|c s]; simpl; [done|].
  destruct (decide (c = sep)); [done|]. by destruct (split sep s).
Qed.

(** [(x + sep + y).split(sep) == x.split(sep) + y.split(sep)] *)
Lemma split_app sep x y :
  split sep (x ++ sep :: y) = split sep x ++ split sep y.
Proof.
  induction x as [|c x IH]; simpl.
  - by rewrite decide_True.
  - destruct (decide (c = sep)); [by rewrite IH|].
    rewrite IH. pose proof (split_nonempty sep x).
    by destruct (split sep x).
Qed.

Lemma split_no_sep sep s : sep ∉ s → split sep s = [s].
Proof.
  induction s as [|c s IH]; intros Hs; simpl; [done|].
  apply not_elem_of_cons in Hs as [Hc Hs].
  rewrite decide_False by done. by rewrite IH.
Qed.

(** [sep.join(s.split(sep)) == s] *)
Lemma join_split sep s : join [sep] (split sep s) = s.
Proof.
  induction s as [|c s IH]; simpl; [done|].
  destruct (decide (c = sep)) as [->|Hc].
  - simpl. pose proof (split_nonempty sep s).
    destruct (split sep s) as [|l ls]; [done|]. simpl in *. by rewrite IH.
  - pose proof (split_nonempty sep s).
    destruct (split sep s) as [|l ls]; [done|]. simpl in *. by rewrite IH.
Qed.

Lemma startswith_app p s : startswith p (p ++ s) = true.
Proof. induction p as [|c p IH]; simpl; [done|]. by rewrite decide_True. Qed.

Lemma removelast_snoc {A} (l : list A) x : removelast (l ++ [x]) = l.
Proof. by rewrite removelast_last. Qed.

(** A text between two characters that are not white space is left alone by
    [strip]. *)
Lemma strip_id a s b :
  isspace a = false → isspace b = false → strip (a :: s ++ [b]) = a :: s ++ [b].
Proof.
  intros Ha Hb. unfold strip, rstrip. simpl lstrip. rewrite Ha.
  change (a :: s ++ [b]) with ((a :: s) ++ [b]).
  rewrite rev_app_distr. simpl lstrip. rewrite Hb.
  simpl rev. by rewrite rev_app_distr, rev_involutive.
Qed.

Lemma strip_fenced tag body : strip (fenced tag body) = fenced tag body.
Proof.
  set (a := ascii_of_nat 96).
  assert (fenced tag body
          = a :: ([a; a] ++ tag ++ [nl] ++ body ++ [nl] ++ [a; a]) ++ [a]) as ->.
  { unfold fenced, fence. change (lit "```") with [a; a; a]. simpl.
    do 3 f_equal. rewrite <- !app_assoc. simpl. do 2 f_equal.
    by rewrite <- app_assoc. }
  by apply strip_id.
Qed.

Lemma strip_markdown_fenced tag body :
  nl ∉ tag → strip_markdown (fenced tag body) = body.
Proof.
  intros Htag. unfold strip_markdown.
  unfold fenced at 1. rewrite startswith_app.
  assert (split nl (fenced tag body)
          = (fence ++ tag) :: split nl body ++ [fence]) as ->.
  { replace (fenced tag body) with ((fence ++ tag) ++ nl :: (body ++ nl :: fence))
      by (unfold fenced; by rewrite <- !app_assoc).
    assert (nl ∉ fence) as Hfence
      by (apply (bool_decide_unpack _); vm_compute; exact I).
    rewrite !split_app, (split_no_sep nl fence) by done.
    rewrite (split_no_sep nl (fence ++ tag)); [done|].
    by rewrite not_elem_of_app. }
  rewrite startswith_app. rewrite last_snoc.
  rewrite decide_True by (vm_compute; reflexivity).
  rewrite removelast_snoc. apply join_split.
Qed.

Lemma strip_markdown_plain s : startswith fence s = false → strip_markdown s = s.
Proof. intros H. unfold strip_markdown. by rewrite H. Qed.

Lemma parse_and_assemble_fenced w context question candidates tag body :
  nl ∉ tag →
  startswith fence (strip body) = false →
  json_loads w (strip body) = json_loads w body →
  parse_and_assemble w context question candidates (Some (fenced tag body))
  = parse_and_assemble w context question candidates (Some body).
Proof.
  intros Htag Hplain Hws. unfold parse_and_assemble, or_empty. simpl default.
  rewrite strip_fenced, strip_markdown_fenced by done.
  rewrite strip_markdown_plain by done. by rewrite Hws.
Qed.

(** The answer of the ranking service is handed on as it is. *)
Lemma ranking_call_with_response w content question model candidates log :
  ranking_call (with_response w content) question model candidates log
  = match ranking_call (with_response w None) question model candidates log with
    | (Ok _, log') => (Ok content, log')
    | r => r
    end.
Proof.
  unfold ranking_call. cbn [with_response openai OPENAI_API_KEY client_init
                            chat_completions_create].
  destruct (OPENAI_API_KEY (openai w)) as [api_key|]; [|done].
  destruct (negb (truthy api_key) || negb (truthy (strip api_key))); [done|].
  unfold bind, try_except, lift, call.
  destruct (client_init (openai w) (strip api_key)); done.
Qed.

(** C8.  Let the ranking service answer with a body wrapped in a markdown
    code fence: an opening line of three backticks (and possibly a language
    tag), the body, and a closing line of three backticks.  When the body
    itself does not start with a fence and is a text that the decoder reads
    the same with or without surrounding white space (as [json.loads] does
    for JSON), [compare] parses the fenced answer into the same decoded
    rankings, and returns the same result with the same calls, as for the
    body alone. *)
Theorem fenced_response_parsed_like_plain
    (w : World) (tag body question model : str) (top_k : Z)
    (context : str) (candidates : list Candidate.t) (log : list Event) :
  nl ∉ tag →
  startswith fence (strip body) = false →
  json_loads w (strip body) = json_loads w body →
  json_loads w (strip_markdown (strip (fenced tag body)))
    = json_loads w (strip_markdown (strip body))
  ∧ parse_and_assemble w context question candidates (Some (fenced tag body)) log
    = parse_and_assemble w context question candidates (Some body) log
  ∧ compare (with_response w (Some (fenced tag body))) question top_k model log
    = compare (with_response w (Some body)) question top_k model log.
Proof.
  intros Htag Hplain Hws.
  split; [|split].
  - rewrite strip_fenced, strip_markdown_fenced by done.
    by rewrite strip_markdown_plain.
  - by rewrite parse_and_assemble_fenced.
  - assert (∀ c, embedding_query (with_response w c) = embedding_query w)
      as Hretrieve by reflexivity.
    assert (∀ c, hydrate (with_response w c) = hydrate w)
      as Hhydrate by reflexivity.
    assert (∀ c, parse_and_assemble (with_response w c) = parse_and_assemble w)
      as Hparse by reflexivity.
    unfold compare. rewrite !Hretrieve, !Hhydrate, !Hparse.
    cbn [with_response chroma db incoming_hook].
    destruct (negb (chroma_path_exists (chroma w))); [done|].
    unfold bind at 1 4.
    destruct (embedding_query w _ top_k log) as [[results|e] log1]; [|done].
    destruct (extract_ticket_numbers results) as [|t ts]; [done|].
    destruct (negb (db_path_exists (db w))); [done|].
    unfold bind at 1 3.
    destruct (hydrate w (t :: ts) log1) as [[[|c cs]|e] log2]; [done| |done].
    unfold bind.
    rewrite (ranking_call_with_response w (Some (fenced tag body))).
    rewrite (ranking_call_with_response w (Some body)).
    destruct (ranking_call (with_response w None) _ model (c :: cs) log2)
      as [[?|?] log3]; [|done].
    by rewrite parse_and_assemble_fenced.
Qed.

Lemma fenced_response_parsed_like_plain_witness :
  compare (with_response sample_world (Some (fenced (lit "json") sample_response)))
    (lit "invoice totals wrong") 5 (lit "gpt-4o-mini") []
  = compare (with_response sample_world (Some sample_response))
    (lit "invoice totals wrong") 5 (lit "gpt-4o-mini") [].
Proof.
  apply (fenced_response_parsed_like_plain sample_world (lit "json") sample_response
           (lit "invoice totals wrong") (lit "gpt-4o-mini") 5 [] [] []).
  - apply (bool_decide_unpack _). vm_compute. exact I.
  - vm_compute. reflexivity.
  - vm_compute. reflexivity.
Defined.

(** ** Errors of the agent *)


Lemma try_except_ok {A} prefix (m : M A) log a log' :
  try_except prefix m log = (Ok a, log') → m log = (Ok a, log').
Proof. unfold try_except. by destruct (m log) as [[?|?] ?]. Qed.










(** ** The no-match outcome of the retrieval step *)

(** The retrieval step calls the index and nothing else. *)
Lemma embedding_query_no_ranking_call w question top_k log r log' :
  embedding_query w question top_k log = (r, log') →
  filter is_ranking_call log' = filter is_ranking_call log.
Proof.
  unfold embedding_query, try_except, embedding_query_try, bind, lift, call.
  destruct (open_client (chroma w)); [|intros [= <- <-]; done].
  destruct (client_get_collection (chroma w) _) as [collection|];
    [|intros [= <- <-]; done].
  destruct (count collection) as [n|]; [|intros [= <- <-]; done].
  destruct (query collection _ _ _); intros [= <- <-];
    by rewrite filter_app, app_nil_r.
Qed.

(** Whenever the query yields no ticket id, [compare] returns at once: no
    store access, no ranking call, and the dictionary with the keys
    [winner], [candidates], [question] and [no_match]. *)
Lemma compare_no_ticket_ids w question top_k model log results log' :
  chroma_path_exists (chroma w) = true →
  embedding_query w (hooked_question w question) top_k log = (Ok results, log') →
  extract_ticket_numbers results = [] →
  compare w question top_k model log
  = (Ok [("winner", VNone); ("candidates", VList []);
         ("question", VStr (hooked_question w question)); ("no_match", VBool true)],
     log')
  ∧ filter is_ranking_call log' = filter is_ranking_call log.
Proof.
  intros Hexists Hquery Hnone. split.
  - unfold compare. fold (hooked_question w question).
    rewrite Hexists. cbn [negb]. unfold bind. by rewrite Hquery, Hnone.
  - by eapply embedding_query_no_ranking_call.
Qed.

(** C1, at a failing input.  Against an index without ticket chunks the
    question [printer jams] is answered without any call to the ranking
    service and with the no-match flag set, but the returned dictionary has
    the keys [winner] and [candidates] and no key [ranked_results]. *)
Theorem compare_no_ticket_ids_result_shape :
  ∃ result log',
    compare no_ticket_world (lit "printer jams") 5 (lit "gpt-4o-mini") []
      = (Ok result, log')
    ∧ filter is_ranking_call log' = []
    ∧ dict_get "no_match" result = Some (VBool true)
    ∧ dict_get "ranked_results" result = None
    ∧ dict_get "winner" result = Some VNone
    ∧ dict_get "candidates" result = Some (VList []).
Proof.
  eexists _, _. split; [vm_compute; reflexivity|].
  repeat split.
Qed.

(** ** The retriever *)

(** C4, as the code has it.  [query_chroma] returns an empty sequence when
    the index path does not exist.  Otherwise it asks the collection for
    [min(k, count)] results and, when the collection answers, returns one
    hit per returned document, in order: at most [count] hits for [k]
    greater than [count] whenever the collection returns no more documents
    than it was asked for.  An exception raised by the client, the
    collection lookup, the count or the query is not caught. *)
Theorem query_chroma_clamps_or_propagates
    (chroma : ChromaClient) (query_text collection_name : str) (k : Z)
    (where_ : option (str * str)) :
  let outcome := query_chroma chroma query_text k collection_name where_ in
  if negb (chroma_path_exists chroma) then outcome = Ok []
  else
    match open_client chroma with
    | Raise e => outcome = Raise e
    | Ok _ =>
        match client_get_collection chroma collection_name with
        | Raise e => outcome = Raise e
        | Ok collection =>
            match count collection with
            | Raise e => outcome = Raise e
            | Ok n =>
                match query collection query_text (Z.min k n) where_ with
                | Raise e => outcome = Raise e
                | Ok results =>
                    ∃ hits, outcome = Ok hits
                      ∧ map h_text hits = first_documents results
                      ∧ ((n < k)%Z →
                         len (first_documents results) ≤ Z.min k n →
                         len hits ≤ n)%Z
                end
            end
        end
    end.
Proof.
  intros outcome. subst outcome. unfold query_chroma.
  destruct (negb (chroma_path_exists chroma)); [done|].
  destruct (open_client chroma) as [[]|e]; [|done]. simpl.
  destruct (client_get_collection chroma collection_name) as [collection|e];
    [|done]. simpl.
  destruct (count collection) as [n|e]; [|done]. simpl.
  destruct (query collection query_text (Z.min k n) where_) as [results|e];
    [|done]. simpl.
  eexists. split; [done|].
  unfold first_documents.
  destruct (qr_documents results) as [[|[|doc docs] ?]|].
  1,2,4: (split; [done|]; unfold len; simpl; lia).
  assert (∀ (f : nat → str → Hit) ds, (∀ i d, h_text (f i d) = d) →
            map h_text (imap f ds) = ds) as Htexts.
  { intros f ds. revert f. induction ds as [|d ds IH]; intros f Hf; [done|].
    simpl. rewrite Hf. f_equal. apply IH. intros i d'. apply Hf. }
  split.
  - by apply Htexts.
  - intros Hk Hhonest. unfold len in *. rewrite length_imap. lia.
Qed.

(** C4, as stated, fails: in a Chroma directory that exists but holds no
    collection, the lookup of the collection raises and the query raises
    with it. *)
Lemma query_chroma_raises_counterexample :
  query_chroma missing_collection_chroma (lit "printer jams") 10 COLLECTION_NAME None
  = Raise (Exception_ (lit "Collection supportmind does not exist")).
Proof. reflexivity. Qed.

(** ** Index construction *)

(** For chunks of source type [kb] the two identifier derivations agree. *)
Lemma kb_chunk_id_same chunk :
  source_type chunk = lit "kb" →
  build_chunk_id chunk = add_chunk_id chunk
  ∧ build_metadata chunk = add_metadata chunk.
Proof.
  intros Hkb. unfold build_chunk_id, add_chunk_id, build_metadata, add_metadata.
  rewrite Hkb. split; reflexivity.
Qed.

(** For an article id that is not empty and carries no surrounding white
    space, the full build makes of the article's row the chunk list that the
    incremental add makes of the same id, title and body. *)
Lemma chunks_from_kb_as_add fuel id title body chunk_size chunk_overlap :
  strip id = id → id ≠ [] →
  chunks_from_kb fuel
    [Knowledge_Articles.mk (Some id) (Some title) (Some body)]
    chunk_size chunk_overlap
  = let combined := kb_combined (_safe_str (Some title)) (_safe_str (Some body)) in
    if negb (truthy combined) then Some []
    else kb_article_chunk_list id <$> _sliding_chunks fuel combined chunk_size chunk_overlap.
Proof.
  intros Htrim Hne. simpl. rewrite Htrim.
  replace (truthy id) with true by (by destruct id). cbn [negb].
  destruct (negb (truthy _)); [done|].
  destruct (_sliding_chunks fuel _ chunk_size chunk_overlap) as [parts|]; [|done].
  simpl. by rewrite app_nil_r.
Qed.

(** C7, at a failing input.  For the article id [ KB1] (with a leading
    blank), title [Reset] and body [Hold the button.], the full build over a
    store holding that row writes one chunk under the identifier [kb_KB1_0]
    with source id [KB1], whereas the incremental add of the same id, title
    and body writes the same document under [kb_ KB1_0] with source id
    [ KB1]. *)
Theorem add_kb_article_untrimmed_id_differs :
  ∃ built added,
    build_index 1 padded_article_db ∅ COLLECTION_NAME
      DEFAULT_CHUNK_SIZE DEFAULT_CHUNK_OVERLAP = Some (Ok 1%Z, built)
    ∧ add_kb_article_to_index 1 padded_id (lit "Reset") (lit "Hold the button.")
        {[ COLLECTION_NAME := [] ]} COLLECTION_NAME
        DEFAULT_CHUNK_SIZE DEFAULT_CHUNK_OVERLAP = Some (Ok 1%Z, added)
    ∧ map e_id (built !!! COLLECTION_NAME) = [lit "kb_KB1_0"]
    ∧ map e_id (added !!! COLLECTION_NAME) = [lit "kb_ KB1_0"]
    ∧ map e_document (built !!! COLLECTION_NAME)
      = map e_document (added !!! COLLECTION_NAME)
    ∧ map (md_source_id ∘ e_metadata) (built !!! COLLECTION_NAME) = [Some (lit "KB1")]
    ∧ map (md_source_id ∘ e_metadata) (added !!! COLLECTION_NAME) = [Some padded_id].
Proof.
  eexists _, _. split; [vm_compute; reflexivity|].
  split; [vm_compute; reflexivity|].
  repeat split; vm_compute; reflexivity.
Qed.

(** C10.  When the store yields no chunk, [build_index] returns 0 and
    leaves the vector store with an empty collection under the configured
    name: what an earlier collection of that name held is gone, every other
    collection is as before. *)
Theorem build_index_empty_store_replaces_collection
    (fuel : nat) (db : Database) (chroma : ChromaStore)
    (collection_name : str) (chunk_size chunk_overlap : Z) :
  load_chunks_from_db fuel db chunk_size chunk_overlap = Some [] →
  ∃ chroma',
    build_index fuel db chroma collection_name chunk_size chunk_overlap
      = Some (Ok 0%Z, chroma')
    ∧ chroma' = <[collection_name := []]> chroma
    ∧ chroma' !! collection_name = Some []
    ∧ (∀ other, other ≠ collection_name → chroma' !! other = chroma !! other).
Proof.
  intros Hnone. exists (<[collection_name := []]> chroma).
  split; [|split; [done|split]].
  - unfold build_index, delete_collection, create_collection.
    destruct (chroma !! collection_name) as [old|] eqn:Hold.
    + rewrite lookup_delete_eq, Hnone. simpl. by rewrite insert_delete_eq.
    + rewrite Hold, Hnone. done.
  - apply lookup_insert_eq.
  - intros other Hother. by apply lookup_insert_ne.
Qed.

Lemma build_index_empty_store_replaces_collection_witness :
  ∃ chroma',
    build_index 0 empty_database stale_store COLLECTION_NAME
      DEFAULT_CHUNK_SIZE DEFAULT_CHUNK_OVERLAP = Some (Ok 0%Z, chroma')
    ∧ stale_store !! COLLECTION_NAME ≠ Some []
    ∧ chroma' !! COLLECTION_NAME = Some [].
Proof.
  destruct (build_index_empty_store_replaces_collection 0 empty_database
              stale_store COLLECTION_NAME DEFAULT_CHUNK_SIZE DEFAULT_CHUNK_OVERLAP)
    as (chroma' & Hrun & _ & Hempty & _).
  - reflexivity.
  - exists chroma'. split; [exact Hrun|]. split; [|exact Hempty].
    unfold stale_store. rewrite lookup_singleton_eq. discriminate.
Defined.

(** ** More on the chunker *)

Lemma lstrip_idemp s : lstrip (lstrip s) = lstrip s.
Proof.
  induction s as [|c s IH]; [done|]. simpl.
  destruct (isspace c) eqn:Hc; [done|]. simpl. by rewrite Hc.
Qed.

(** What [lstrip] returns does not start with white space. *)
Lemma lstrip_head s : lstrip s = [] ∨ ∃ c s', lstrip s = c :: s' ∧ isspace c = false.
Proof.
  induction s as [|c s IH]; [by left|]. simpl.
  destruct (isspace c) eqn:Hc; [done|]. right. by exists c, s.
Qed.

(** [lstrip] returns a suffix of its argument. *)
Lemma lstrip_suffix s : ∃ ws, s = ws ++ lstrip s.
Proof.
  induction s as [|c s [ws IH]]; [by exists []|]. simpl.
  destruct (isspace c); [|by exists []].
  exists (c :: ws). simpl. by f_equal.
Qed.

Lemma strip_idemp s : strip (strip s) = strip s.
Proof.
  unfold strip, rstrip. remember (lstrip s) as u eqn:Hu.
  destruct (lstrip_head (rev u)) as [Hnil|(b & r & Hr & Hb)].
  { by rewrite Hnil. }
  rewrite Hr.
  assert (lstrip (rev (b :: r)) = rev (b :: r)) as ->.
  { destruct (lstrip_suffix (rev u)) as [ws Hws]. rewrite Hr in Hws.
    apply (f_equal (@rev ascii)) in Hws.
    rewrite rev_involutive, rev_app_distr in Hws. simpl in Hws.
    simpl. destruct (rev r) as [|c q]; simpl; [by rewrite Hb|].
    destruct (lstrip_head s) as [Hnone|(c' & s' & Hs & Hc')].
    - rewrite <- Hu in Hnone. by rewrite Hnone in Hws.
    - rewrite <- Hu in Hs. rewrite Hs in Hws. simpl in Hws.
      rewrite <- app_assoc in Hws. injection Hws as -> _. by rewrite Hc'. }
  rewrite rev_involutive. simpl. by rewrite Hb.
Qed.

Section sliding_more.
Variable t : str.
Variables size overlap : Z.
Hypothesis Hoverlap : (0 ≤ overlap < size)%Z.

(** Behind the first [overlap] characters of each window lies, window after
    window, the rest of the text. *)
Lemma windows_from_concat start ws :
  windows_from t size overlap start ws →
  concat (map (drop (Z.to_nat overlap)) ws) = drop (start + Z.to_nat overlap) t.
Proof.
  induction 1 as [start Hlt Hend|start ws Hend Hws IH]; simpl.
  - by rewrite app_nil_r, drop_drop.
  - rewrite IH.
    replace (Z.to_nat size)
      with (Z.to_nat overlap + Z.to_nat (size - overlap)) by lia.
    rewrite <- take_drop_commute, drop_drop.
    replace (start + Z.to_nat (size - overlap) + Z.to_nat overlap)
      with (start + Z.to_nat overlap + Z.to_nat (size - overlap)) by lia.
    rewrite <- (drop_drop t (Z.to_nat (size - overlap))).
    apply take_drop.
Qed.

Lemma windows_from_reassemble ws :
  windows_from t size overlap 0 ws → reassemble (Z.to_nat overlap) ws = t.
Proof.
  inversion 1 as [start Hlt Hend|start ws' Hend Hws]; subst; simpl.
  - by rewrite app_nil_r.
  - rewrite (windows_from_concat _ _ Hws).
    replace (0 + Z.to_nat (size - overlap) + Z.to_nat overlap)
      with (Z.to_nat size) by lia.
    apply take_drop.
Qed.

Lemma windows_from_bounds start ws :
  windows_from t size overlap start ws →
  Forall (λ w, w ≠ [] ∧ (len w ≤ size)%Z) ws.
Proof.
  intros Hws. apply Forall_lookup. intros i w Hi.
  destruct (windows_from_lookup t size overlap Hoverlap start ws Hws i w Hi)
    as (-> & Hpos & _).
  assert (length (take (Z.to_nat size) (drop (start + i * Z.to_nat (size - overlap)) t))
          = Z.to_nat size `min` (length t - (start + i * Z.to_nat (size - overlap))))
    as Hlen by (by rewrite length_take, length_drop).
  split.
  - intros Hnil. rewrite Hnil in Hlen. simpl in Hlen. lia.
  - unfold len. lia.
Qed.
End sliding_more.

(** X1.  With [0 <= overlap < size] the chunker always comes back, given one
    loop round per character: every chunk is non-empty and at most [size]
    characters long, the chunks glued together without their overlaps are
    exactly the trimmed text, and there is no chunk exactly when the text is
    blank. *)
Theorem sliding_chunks_total_and_lossless (text : str) (size overlap : Z) :
  (0 ≤ overlap < size)%Z →
  ∃ ws : list str,
    (∀ fuel, length (strip text) ≤ fuel →
       _sliding_chunks fuel text size overlap = Some ws)
    ∧ Forall (λ w, w ≠ [] ∧ (len w ≤ size)%Z) ws
    ∧ reassemble (Z.to_nat overlap) ws = strip text
    ∧ (ws = [] ↔ strip text = []).
Proof.
  intros Hov. unfold _sliding_chunks.
  destruct text as [|c text'].
  { exists []. repeat split; try done. }
  cbn [truthy negb]. cbv zeta. set (t := strip (c :: text')).
  destruct (Z.leb_spec (len t) size) as [Hshort|Hlong].
  - destruct t as [|a t'] eqn:Ht; cbn [truthy].
    + exists []. repeat split; try done.
    + exists [a :: t']. split; [done|]. split; [|split].
      * constructor; [|constructor]. split; [done|]. done.
      * simpl. by rewrite app_nil_r.
      * split; intros; done.
  - unfold len in Hlong.
    destruct (sliding_loop_windows t size overlap Hov (length t) 0 [])
      as (ws & Hrun & Hws); [lia|lia|].
    change (Z.of_nat 0) with 0%Z in Hrun. rewrite app_nil_l in Hrun.
    exists ws. split; [|split; [|split]].
    + intros fuel Hfuel.
      replace fuel with (length t + (fuel - length t)) by lia.
      by apply sliding_loop_more_fuel.
    + by eapply windows_from_bounds.
    + by apply (windows_from_reassemble t size overlap Hov).
    + split.
      * intros ->. by apply windows_from_nonempty in Hws.
      * intros Hnil. rewrite Hnil in Hlong. simpl in Hlong. lia.
Qed.

Lemma sliding_chunks_total_and_lossless_witness :
  ∃ ws : list str,
    _sliding_chunks 10 (lit "  abcdefghij") 4 1 = Some ws
    ∧ reassemble 1 ws = lit "abcdefghij".
Proof.
  destruct (sliding_chunks_total_and_lossless (lit "  abcdefghij") 4 1)
    as (ws & Hrun & _ & Hglue & _); [lia|].
  exists ws. split; [apply Hrun; vm_compute; lia|exact Hglue].
Defined.

(** X2.  How many chunks a text gives: when the chunker returns [ws] for a
    trimmed text longer than [size] (and [0 <= overlap < size]), the number
    [n] of chunks is the least one with
    [len(t) <= (n - 1) * (size - overlap) + size]. *)
Theorem sliding_chunks_count (text : str) (size overlap : Z) fuel ws :
  (0 ≤ overlap < size)%Z →
  (size < len (strip text))%Z →
  _sliding_chunks fuel text size overlap = Some ws →
  ((len ws - 2) * (size - overlap) + size < len (strip text)
   ∧ len (strip text) ≤ (len ws - 1) * (size - overlap) + size)%Z.
Proof.
  intros Hov Hlong Hrun.
  set (t := strip text) in *. unfold len in Hlong.
  (* the run with enough fuel gives the same windows *)
  assert (0 < length t) as Ht by lia.
  destruct (sliding_loop_windows t size overlap Hov (length t) 0 [])
    as (ws0 & Hrun0 & Hws); [lia|lia|].
  change (Z.of_nat 0) with 0%Z in Hrun0. rewrite app_nil_l in Hrun0.
  assert (ws = ws0) as ->.
  { unfold _sliding_chunks in Hrun.
    assert (text ≠ []) as Htext.
    { apply strip_nonempty. fold t. intros E. rewrite E in Ht. simpl in Ht. lia. }
    replace (truthy text) with true in Hrun by (by destruct text).
    cbn [negb] in Hrun. cbv zeta in Hrun. fold t in Hrun.
    destruct (Z.leb_spec (len t) size) as [Hle|_]; [unfold len in Hle; lia|].
    apply (sliding_loop_more_fuel t size overlap _ (length t)) in Hrun.
    apply (sliding_loop_more_fuel t size overlap _ fuel) in Hrun0.
    rewrite Nat.add_comm in Hrun0. congruence. }
  pose proof (windows_from_two t size overlap 0 ws0) as Htwo.
  specialize (Htwo ltac:(unfold len; lia) Hws).
  pose proof (windows_from_lookup t size overlap Hov 0 ws0 Hws) as Hlook.
  destruct (lookup_lt_is_Some_2 ws0 (length ws0 - 1)) as [wl Hwl]; [lia|].
  destruct (lookup_lt_is_Some_2 ws0 (length ws0 - 2)) as [wp Hwp]; [lia|].
  destruct (Hlook _ _ Hwl) as (_ & _ & _ & Hlast). specialize (Hlast ltac:(lia)).
  destruct (Hlook _ _ Hwp) as (_ & _ & Hmid & _). specialize (Hmid ltac:(lia)).
  simpl in Hlast, Hmid. unfold len. split; nia.
Qed.

Lemma sliding_chunks_count_witness :
  let ws := [lit "abcd"; lit "defg"; lit "ghij"] in
  _sliding_chunks 10 (lit "  abcdefghij") 4 1 = Some ws
  ∧ ((len ws - 2) * (4 - 1) + 4 < len (strip (lit "  abcdefghij"))
     ∧ len (strip (lit "  abcdefghij")) ≤ (len ws - 1) * (4 - 1) + 4)%Z.
Proof.
  split; [reflexivity|].
  apply (sliding_chunks_count (lit "  abcdefghij") 4 1 10).
  - lia.
  - vm_compute. reflexivity.
  - reflexivity.
Defined.

(** ** What the chunker indexes *)













(** The loop only ever appends, and appends at least once when it starts
    inside the text. *)
Lemma sliding_loop_grows t size overlap fuel : ∀ start chunks r,
  sliding_loop fuel t size overlap start chunks = Some r →
  length chunks ≤ length r ∧ ((start < len t)%Z → length chunks < length r).
Proof.
  induction fuel as [|fuel IH]; intros start chunks r; [done|]. simpl.
  destruct (Z.ltb_spec start (len t)) as [Hin|Hout].
  - destruct (start + size >=? len t)%Z.
    + intros [= <-]. rewrite length_app. simpl. lia.
    + intros Hrun. apply IH in Hrun as [Hle _].
      rewrite length_app in Hle. simpl in Hle. lia.
  - intros [= <-]. lia.
Qed.

(** A text that is not blank gives at least one chunk, whatever the
    parameters. *)
Lemma sliding_chunks_nonempty fuel text size overlap ws :
  strip text ≠ [] →
  _sliding_chunks fuel text size overlap = Some ws → ws ≠ [].
Proof.
  intros Hne. unfold _sliding_chunks.
  replace (truthy text) with true
    by (apply strip_nonempty in Hne; by destruct text).
  cbn [negb]. cbv zeta.
  destruct (len (strip text) <=? size)%Z.
  - replace (truthy (strip text)) with true by (by destruct (strip text)).
    by intros [= <-].
  - intros Hrun. apply sliding_loop_grows in Hrun as [_ Hlt].
    assert (0 < length ws) as Hpos
      by (apply Hlt; unfold len; destruct (strip text); [done|simpl; lia]).
    destruct ws; [simpl in Hpos; lia|done].
Qed.





(** ** Chunk identifiers *)

Lemma pretty_N_char_digit y : pretty_N_char y ∈ lit "0123456789".
Proof.
  unfold pretty_N_char.
  repeat case_match; apply (bool_decide_unpack _); vm_compute; exact I.
Qed.

Lemma pretty_N_go_chars x : ∀ s c,
  c ∈ list_ascii_of_string (pretty_N_go x s) →
  c ∈ lit "0123456789" ∨ c ∈ list_ascii_of_string s.
Proof.
  induction (N.lt_wf_0 x) as [x _ IH]; intros s c.
  assert (x = 0 ∨ 0 < x)%N as [->|Hpos] by lia.
  - rewrite pretty_N_go_0. by right.
  - rewrite pretty_N_go_step by done. intros Hc.
    apply IH in Hc; [|by apply N.div_lt].
    destruct Hc as [Hc|Hc]; [by left|].
    simpl in Hc. apply elem_of_cons in Hc as [->|Hc]; [|by right].
    left. apply pretty_N_char_digit.
Qed.

Lemma str_of_nat_digits n c : c ∈ str_of_nat n → c ∈ lit "0123456789".
Proof.
  unfold str_of_nat, lit, pretty, pretty_nat, pretty, pretty_N.
  case_decide.
  - intros Hc. apply list_elem_of_singleton in Hc as ->.
    apply (bool_decide_unpack _). vm_compute. exact I.
  - intros Hc. apply pretty_N_go_chars in Hc as [Hc|Hc]; [done|].
    by apply elem_of_nil in Hc.
Qed.

Lemma str_of_nat_no_underscore n : "_"%char ∉ str_of_nat n.
Proof.
  intros Hin. apply str_of_nat_digits in Hin. revert Hin.
  apply (bool_decide_unpack _). vm_compute. exact I.
Qed.

Lemma str_of_nat_inj n m : str_of_nat n = str_of_nat m → n = m.
Proof.
  unfold str_of_nat, lit. intros H.
  apply (f_equal string_of_list_ascii) in H.
  rewrite !string_of_list_ascii_of_string in H.
  by apply (inj pretty) in H.
Qed.

(** Two texts cut at their first separator. *)
Lemma app_sep_inj_first (sep : ascii) a1 : ∀ a2 r1 r2,
  sep ∉ a1 → sep ∉ a2 →
  a1 ++ sep :: r1 = a2 ++ sep :: r2 → a1 = a2 ∧ r1 = r2.
Proof.
  induction a1 as [|c a1 IH]; intros [|c' a2] r1 r2 H1 H2; simpl.
  - by intros [= ->].
  - intros [= <- _]. exfalso. apply H2. by left.
  - intros [= -> _]. exfalso. apply H1. by left.
  - intros [= -> Heq].
    apply not_elem_of_cons in H1 as [_ H1].
    apply not_elem_of_cons in H2 as [_ H2].
    destruct (IH a2 r1 r2 H1 H2 Heq) as [-> ->]. done.
Qed.

(** Two texts cut at their last separator. *)
Lemma app_sep_inj_last (sep : ascii) i1 i2 d1 d2 :
  sep ∉ d1 → sep ∉ d2 →
  i1 ++ sep :: d1 = i2 ++ sep :: d2 → i1 = i2 ∧ d1 = d2.
Proof.
  intros H1 H2 Heq. apply (f_equal (@rev ascii)) in Heq.
  rewrite !rev_app_distr in Heq. simpl in Heq. rewrite <- !app_assoc in Heq.
  simpl in Heq.
  apply app_sep_inj_first in Heq as [Hd Hi].
  - split; [by apply rev_inj in Hi || (apply (f_equal (@rev ascii)) in Hi;
                by rewrite !rev_involutive in Hi)|].
    apply (f_equal (@rev ascii)) in Hd. by rewrite !rev_involutive in Hd.
  - rewrite list_elem_of_In, <- in_rev, <- list_elem_of_In. done.
  - rewrite list_elem_of_In, <- in_rev, <- list_elem_of_In. done.
Qed.

(** X5.  The identifier under which a chunk is stored determines the chunk's
    source type, source id and index, for source types without an underscore
    (as [ticket], [script] and [kb] are): two chunks share an identifier only
    if they agree on all three, whatever characters the source id has. *)
Theorem build_chunk_id_inj (c1 c2 : Chunk) :
  "_"%char ∉ source_type c1 → "_"%char ∉ source_type c2 →
  build_chunk_id c1 = build_chunk_id c2 →
  source_type c1 = source_type c2
  ∧ source_id c1 = source_id c2
  ∧ chunk_index c1 = chunk_index c2.
Proof.
  intros H1 H2. unfold build_chunk_id.
  change (lit "_") with ["_"%char]. simpl.
  intros Heq.
  apply app_sep_inj_first in Heq as [Hst Hrest]; [|done..].
  apply app_sep_inj_last in Hrest as [Hid Hidx];
    [|apply str_of_nat_no_underscore..].
  by apply str_of_nat_inj in Hidx.
Qed.

Lemma build_chunk_id_inj_witness :
  let c1 := mkChunk (lit "first text") (lit "kb") (lit "KB_1_a") 10 in
  let c2 := mkChunk (lit "other text") (lit "kb") (lit "KB_1_a") 10 in
  source_type c1 = source_type c2
  ∧ source_id c1 = source_id c2
  ∧ chunk_index c1 = chunk_index c2.
Proof.
  intros c1 c2. apply (build_chunk_id_inj c1 c2).
  - apply (bool_decide_unpack _). vm_compute. exact I.
  - apply (bool_decide_unpack _). vm_compute. exact I.
  - reflexivity.
Defined.

(** ** Writing the index *)

Lemma zip_entries_map {A} (f g : A → str) (h : A → Metadata) l :
  zip_entries (map f l) (map g l) (map h l) = map (λ x, mkEntry (f x) (g x) (h x)) l.
Proof. induction l as [|x l IH]; simpl; [done|]. by rewrite IH. Qed.

Lemma zip_entries_take k : ∀ ids documents metadatas,
  zip_entries (take k ids) (take k documents) (take k metadatas)
  = take k (zip_entries ids documents metadatas).
Proof.
  induction k as [|k IH]; intros [|i ids] [|d documents] [|m metadatas];
    simpl; try done.
  all: by rewrite ?IH.
Qed.

Lemma zip_entries_drop k : ∀ ids documents metadatas,
  length documents = length ids → length metadatas = length ids →
  zip_entries (drop k ids) (drop k documents) (drop k metadatas)
  = drop k (zip_entries ids documents metadatas).
Proof.
  induction k as [|k IH]; intros [|i ids] [|d documents] [|m metadatas];
    simpl; try done.
  intros [= Hd] [= Hm]. by apply IH.
Qed.

Lemma length_zip_entries ids : ∀ documents metadatas,
  length documents = length ids → length metadatas = length ids →
  length (zip_entries ids documents metadatas) = length ids.
Proof.
  induction ids as [|i ids IH]; intros [|d documents] [|m metadatas];
    simpl; try done.
  intros [= Hd] [= Hm]. by rewrite IH.
Qed.

(** One batch: [l[i : min(i + batch_size, n)]] for a list of length [n]. *)
Lemma slice_batch {A} (l : list A) (i : nat) (n : Z) :
  n = len l → i ≤ length l →
  slice l (Z.of_nat i) (Z.min (Z.of_nat i + Z.of_nat batch_size) n)
  = take batch_size (drop i l).
Proof.
  intros -> Hi. unfold slice, slice_index, len, batch_size.
  destruct (Z.ltb_spec (Z.of_nat i) 0); [lia|].
  destruct (Z.ltb_spec (Z.min (Z.of_nat i + Z.of_nat 100)
                          (Z.of_nat (length l))) 0); [lia|].
  rewrite (Z.min_l (Z.of_nat i)) by lia. rewrite Nat2Z.id.
  destruct (Z.le_ge_cases (Z.of_nat i + Z.of_nat 100) (Z.of_nat (length l))).
  - rewrite !Z.min_l by lia. f_equal. lia.
  - repeat rewrite Z.min_r by lia.
    rewrite !take_ge; [done| |]; rewrite length_drop; lia.
Qed.

Lemma collection_add_existing (name : str) (ids documents : list str)
    (metadatas : list Metadata)
    (chroma : ChromaStore) (old : list Entry) :
  chroma !! name = Some old →
  collection_add name ids documents metadatas chroma
  = Ok (<[name := old ++ zip_entries ids documents metadatas]> chroma).
Proof. intros H. unfold collection_add, get_collection. by rewrite H. Qed.

Lemma batch_count_bound n m :
  S m ≤ (n + (batch_size - 1)) / batch_size → m * batch_size < n.
Proof.
  unfold batch_size. change (100 - 1) with 99.
  pose proof (Nat.div_mod_eq (n + 99) 100).
  pose proof (Nat.mod_upper_bound (n + 99) 100). lia.
Qed.

Lemma batch_count_cover n :
  n ≤ (n + (batch_size - 1)) / batch_size * batch_size.
Proof.
  unfold batch_size. change (100 - 1) with 99.
  pose proof (Nat.div_mod_eq (n + 99) 100).
  pose proof (Nat.mod_upper_bound (n + 99) 100). lia.
Qed.

(** The batched writes add up to one write of everything. *)
Lemma add_in_batches_spec (name : str) (ids documents : list str)
    (metadatas : list Metadata)
    (chroma : ChromaStore) (old : list Entry) :
  chroma !! name = Some old →
  length documents = length ids → length metadatas = length ids →
  add_in_batches name ids documents metadatas chroma
  = (Ok (), <[name := old ++ zip_entries ids documents metadatas]> chroma).
Proof.
  intros Hold Hd Hm. unfold add_in_batches, batch_starts.
  set (all := zip_entries ids documents metadatas).
  assert (length all = length ids) as Hall by (by apply length_zip_entries).
  set (step := λ (acc : res () * ChromaStore) (i : nat), _).
  assert (∀ m, m ≤ (length ids + (batch_size - 1)) / batch_size →
            foldl step (Ok (), chroma) (map (λ j, j * batch_size) (seq 0 m))
            = (Ok (), <[name := old ++ take (m * batch_size) all]> chroma)) as Hloop.
  { induction m as [|m IH]; intros Hm'.
    - simpl. rewrite app_nil_r. by rewrite insert_id.
    - rewrite seq_S, map_app, foldl_app, IH by lia. simpl.
      assert (m * batch_size ≤ length ids) as Hin
        by (apply batch_count_bound in Hm'; lia).
      rewrite !slice_batch by (done || lia || (unfold len; lia)).
      rewrite (collection_add_existing _ _ _ _ _ (old ++ take (m * batch_size) all))
        by apply lookup_insert_eq.
      rewrite insert_insert_eq. do 2 f_equal.
      rewrite zip_entries_take, zip_entries_drop by done.
      rewrite <- app_assoc. f_equal. fold all.
      rewrite take_take_drop. f_equal. unfold batch_size. lia. }
  rewrite Hloop by done. do 2 f_equal.
  rewrite take_ge; [done|]. rewrite Hall.
  apply batch_count_cover.
Qed.

(** The store that a build leaves behind. *)
Lemma build_index_spec (fuel : nat) (db : Database) (chroma : ChromaStore)
    (name : str) (chunk_size chunk_overlap : Z) (chunks : list Chunk) :
  load_chunks_from_db fuel db chunk_size chunk_overlap = Some chunks →
  build_index fuel db chroma name chunk_size chunk_overlap
  = Some (Ok (len chunks), <[name := map entry_of_chunk chunks]> chroma).
Proof.
  intros Hload. unfold build_index, delete_collection, create_collection.
  set (fresh := match chroma !! name with
                | Some _ => delete name chroma
                | None => chroma
                end).
  assert (fresh !! name = None) as Hfresh.
  { unfold fresh. destruct (chroma !! name) eqn:E; [apply lookup_delete_eq|done]. }
  assert (∀ v, <[name := v]> fresh = <[name := v]> chroma) as Hins.
  { intros v. unfold fresh.
    destruct (chroma !! name) eqn:E; [apply insert_delete_eq|done]. }
  replace (match match chroma !! name with
                 | Some _ => Ok (delete name chroma)
                 | None => Raise (Exception_ (lit "Collection does not exist"))
                 end with
           | Ok chroma' => chroma'
           | Raise _ => chroma
           end) with fresh by (unfold fresh; by destruct (chroma !! name)).
  rewrite Hfresh, Hload. simpl.
  destruct chunks as [|chunk chunks]; simpl.
  { by rewrite Hins. }
  change (build_chunk_id chunk :: map build_chunk_id chunks)
    with (map build_chunk_id (chunk :: chunks)).
  change (text chunk :: map text chunks) with (map text (chunk :: chunks)).
  change (build_metadata chunk :: map build_metadata chunks)
    with (map build_metadata (chunk :: chunks)).
  rewrite (add_in_batches_spec _ _ _ _ _ [])
    by (rewrite ?lookup_insert_eq, ?length_map; done).
  rewrite insert_insert_eq, Hins, zip_entries_map. simpl.
  unfold len. simpl. by rewrite length_map.
Qed.



(** X7.  A rebuild over an unchanged store is idempotent and forgets what
    the collection held: building again on the store that a build left
    gives the same count and the same store, and the outcome of a build does
    not depend on the entries found under the collection's name (entries
    added incrementally included). *)
Theorem build_index_idempotent
    (fuel : nat) (db : Database) (chroma : ChromaStore) (collection_name : str)
    (chunk_size chunk_overlap : Z) (chunks : list Chunk) :
  load_chunks_from_db fuel db chunk_size chunk_overlap = Some chunks →
  (∀ r chroma',
     build_index fuel db chroma collection_name chunk_size chunk_overlap
       = Some (r, chroma') →
     build_index fuel db chroma' collection_name chunk_size chunk_overlap
       = Some (r, chroma'))
  ∧ (∀ stale,
       build_index fuel db (<[collection_name := stale]> chroma) collection_name
         chunk_size chunk_overlap
       = build_index fuel db chroma collection_name chunk_size chunk_overlap).
Proof.
  intros Hload. split.
  - intros r chroma'. rewrite (build_index_spec _ _ _ _ _ _ _ Hload).
    intros [= <- <-]. rewrite (build_index_spec _ _ _ _ _ _ _ Hload).
    by rewrite insert_insert_eq.
  - intros stale. rewrite !(build_index_spec _ _ _ _ _ _ _ Hload).
    by rewrite insert_insert_eq.
Qed.

Lemma build_index_idempotent_witness :
  build_index 1 padded_article_db
    (<[COLLECTION_NAME := [kb_entry padded_id 0 (lit "stale")]]> stale_store)
    COLLECTION_NAME DEFAULT_CHUNK_SIZE DEFAULT_CHUNK_OVERLAP
  = build_index 1 padded_article_db stale_store COLLECTION_NAME
      DEFAULT_CHUNK_SIZE DEFAULT_CHUNK_OVERLAP.
Proof.
  destruct (build_index_idempotent 1 padded_article_db stale_store
              COLLECTION_NAME DEFAULT_CHUNK_SIZE DEFAULT_CHUNK_OVERLAP
              [mkChunk (kb_combined (lit "Reset") (lit "Hold the button."))
                 (lit "kb") (lit "KB1") 0]) as [_ Hstale].
  - vm_compute. reflexivity.
  - apply Hstale.
Defined.

(** ** The incremental add *)

Lemma kb_combined_trimmed title body :
  strip body = body → strip (kb_combined title body) = kb_combined title body.
Proof.
  intros Hbody. unfold kb_combined. destruct (truthy title); [|done].
  apply strip_idemp.
Qed.

Lemma kb_article_entries kb_article_id parts :
  zip_entries (map add_chunk_id (kb_article_chunk_list kb_article_id parts))
    (map text (kb_article_chunk_list kb_article_id parts))
    (map add_metadata (kb_article_chunk_list kb_article_id parts))
  = imap (kb_entry kb_article_id) parts.
Proof.
  rewrite zip_entries_map. unfold kb_article_chunk_list.
  change (map ?f ?l) with (f <$> l). rewrite fmap_imap.
  by apply imap_ext.
Qed.

(** What the incremental add does once the article's text is split. *)
Lemma add_kb_article_spec (fuel : nat) (kb_article_id title body : str)
    (chroma : ChromaStore) (name : str) (chunk_size chunk_overlap : Z)
    (parts : list str) :
  kb_combined (strip title) (strip body) ≠ [] →
  _sliding_chunks fuel (kb_combined (strip title) (strip body))
    chunk_size chunk_overlap = Some parts →
  parts ≠ []
  ∧ add_kb_article_to_index fuel kb_article_id title body chroma name
      chunk_size chunk_overlap
    = match chroma !! name with
      | Some old =>
          Some (Ok (len parts),
                <[name := old ++ imap (kb_entry kb_article_id) parts]> chroma)
      | None => Some (Raise (Exception_ (lit "Collection does not exist")), chroma)
      end.
Proof.
  intros Hne Hparts.
  assert (parts ≠ []) as Hsome.
  { eapply sliding_chunks_nonempty; [|exact Hparts].
    rewrite kb_combined_trimmed by apply strip_idemp. done. }
  split; [done|].
  unfold add_kb_article_to_index. cbn [_safe_str].
  replace (truthy (kb_combined (strip title) (strip body))) with true
    by (by destruct (kb_combined (strip title) (strip body))).
  cbn [negb]. rewrite Hparts. simpl.
  destruct parts as [|part parts]; [done|].
  change (kb_article_chunk_list kb_article_id (part :: parts))
    with (mkChunk part (lit "kb") kb_article_id 0
          :: imap ((λ i c, mkChunk c (lit "kb") kb_article_id i) ∘ S) parts).
  cbv iota.
  change (mkChunk part (lit "kb") kb_article_id 0
          :: imap ((λ i c, mkChunk c (lit "kb") kb_article_id i) ∘ S) parts)
    with (kb_article_chunk_list kb_article_id (part :: parts)).
  unfold get_collection at 1.
  destruct (chroma !! name) as [old|] eqn:Hold; [|done].
  rewrite (collection_add_existing _ _ _ _ _ old Hold), kb_article_entries.
  unfold len, kb_article_chunk_list. by rewrite length_map, length_imap.
Qed.



(** X9.  The edges of the incremental add.  An article whose title and body
    are blank adds nothing: the call returns 0 and does not touch the store,
    and does not even look for the collection, so it succeeds on a store
    without one.  An article with text, added to a store without the
    collection, raises the collection lookup's error and leaves the store as
    it was. *)
Theorem add_kb_article_edges
    (fuel : nat) (kb_article_id title body : str) (chroma : ChromaStore)
    (collection_name : str) (chunk_size chunk_overlap : Z) :
  (strip title = [] → strip body = [] →
   add_kb_article_to_index fuel kb_article_id title body chroma collection_name
     chunk_size chunk_overlap = Some (Ok 0%Z, chroma))
  ∧ (∀ parts,
       chroma !! collection_name = None →
       kb_combined (strip title) (strip body) ≠ [] →
       _sliding_chunks fuel (kb_combined (strip title) (strip body))
         chunk_size chunk_overlap = Some parts →
       add_kb_article_to_index fuel kb_article_id title body chroma collection_name
         chunk_size chunk_overlap
       = Some (Raise (Exception_ (lit "Collection does not exist")), chroma)).
Proof.
  split.
  - intros Htitle Hbody. unfold add_kb_article_to_index. cbn [_safe_str].
    by rewrite Htitle, Hbody.
  - intros parts Hmissing Hne Hparts.
    destruct (add_kb_article_spec fuel kb_article_id title body chroma
                collection_name chunk_size chunk_overlap parts Hne Hparts)
      as [_ Hrun].
    by rewrite Hmissing in Hrun.
Qed.

Lemma add_kb_article_edges_witness :
  add_kb_article_to_index 0 (lit "KB7") (lit "  ") (lit " ") ∅ COLLECTION_NAME
    DEFAULT_CHUNK_SIZE DEFAULT_CHUNK_OVERLAP = Some (Ok 0%Z, ∅)
  ∧ add_kb_article_to_index 0 (lit "KB7") (lit "Reset") (lit " ") ∅ COLLECTION_NAME
      DEFAULT_CHUNK_SIZE DEFAULT_CHUNK_OVERLAP
    = Some (Raise (Exception_ (lit "Collection does not exist")), ∅).
Proof.
  split.
  - apply (add_kb_article_edges 0 (lit "KB7") (lit "  ") (lit " ") ∅
             COLLECTION_NAME DEFAULT_CHUNK_SIZE DEFAULT_CHUNK_OVERLAP);
      vm_compute; reflexivity.
  - apply (add_kb_article_edges 0 (lit "KB7") (lit "Reset") (lit " ") ∅
             COLLECTION_NAME DEFAULT_CHUNK_SIZE DEFAULT_CHUNK_OVERLAP)
      with (parts := [lit "Title: Reset"]).
    + apply lookup_empty.
    + vm_compute. discriminate.
    + vm_compute. reflexivity.
Defined.
